(** * 3D maze generator and solver: embedding of [main.py] and its properties

    The Python class [Maze3D] carves a maze in a three-dimensional numpy
    array by randomized depth-first backtracking ([generate_maze]) and
    searches it breadth-first ([solve_maze]); [main] retries the pair a
    bounded number of times.  The embedding is by explicit state passing:
    a method takes the object (and, where it draws random numbers, the
    random source) and returns the object it leaves behind.  Exceptions
    and loops that could run for ever are made explicit in [outcome]. *)

From Stdlib Require Import ZArith List Lia.
From stdpp Require Import base option list gmap.

Local Open Scope Z_scope.

(** ** Outcomes of a run *)

Inductive exn : Set := IndexError | KeyError | ValueError.

Inductive outcome (A : Type) : Type :=
| Ok (a : A)
| Raise (e : exn)
| OutOfFuel.
Arguments Ok {A} a.
Arguments Raise {A} e.
Arguments OutOfFuel {A}.

#[export] Instance outcome_ret : MRet outcome := @Ok.
#[export] Instance outcome_bind : MBind outcome := λ A B f m,
  match m with
  | Ok a => f a
  | Raise e => Raise e
  | OutOfFuel => OutOfFuel
  end.

(** An index operation that fails raises [IndexError]. *)
Definition indexed {A} (o : option A) : outcome A :=
  match o with
  | Some a => Ok a
  | None => Raise IndexError
  end.

(** ** Coordinates and the grid *)

(** A coordinate is the tuple [(z, y, x)] of Python integers. *)
Abbreviation coord := (Z * Z * Z)%type.

(** The numpy array of shape [(depth, height, width)], as nested rows.
    [1] is a wall and [0] is a path. *)
Abbreviation ndarray := (list (list (list Z))).

(** [grid[z, y, x]].  numpy resolves a negative index by counting from the
    end of the axis; the embedding reports every index outside
    [0 <= i < n] as out of range, so that a run which is [Ok] here has used
    only indices inside the array. *)
Definition getitem (g : ndarray) (c : coord) : option Z :=
  let '(z, y, x) := c in
  if bool_decide (0 ≤ z ∧ 0 ≤ y ∧ 0 ≤ x) then
    plane ← g !! Z.to_nat z;
    row ← plane !! Z.to_nat y;
    row !! Z.to_nat x
  else None.

(** [grid[z, y, x] = v]. *)
Definition setitem (g : ndarray) (c : coord) (v : Z) : option ndarray :=
  let '(z, y, x) := c in
  if bool_decide (0 ≤ z ∧ 0 ≤ y ∧ 0 ≤ x) then
    plane ← g !! Z.to_nat z;
    row ← plane !! Z.to_nat y;
    _ ← row !! Z.to_nat x;
    Some (<[Z.to_nat z := <[Z.to_nat y := <[Z.to_nat x := v]> row]> plane]> g)
  else None.

(** The size in bytes of an item of [dtype=int] and the largest size of
    an array, on a 64-bit platform. *)
Definition itemsize : Z := 8.
Definition max_size : Z := 2 ^ 63 - 1.

(** The number of bytes numpy computes for a shape before it allocates:
    the item size times the dimensions that are not zero. *)
Definition nbytes (depth height width : Z) : Z :=
  foldl (λ n dim, if bool_decide (dim = 0) then n else n * dim) itemsize
        [depth; height; width].

(** [np.ones((depth, height, width), dtype=int)].  numpy raises
    [ValueError] for a negative dimension, and also when the bytes of the
    dimensions that are not zero exceed the largest size ("array is too
    big"), even if another dimension is zero.  A [MemoryError] of the
    host, which depends on the machine, is outside the embedding. *)
Definition ones (depth height width : Z) : outcome ndarray :=
  if bool_decide (0 ≤ depth ∧ 0 ≤ height ∧ 0 ≤ width) then
    if bool_decide (nbytes depth height width ≤ max_size) then
      Ok (replicate (Z.to_nat depth)
            (replicate (Z.to_nat height) (replicate (Z.to_nat width) 1)))
    else Raise ValueError
  else Raise ValueError.

(** ** The object *)

Record Maze3D : Type := mkMaze3D {
  width : Z;
  height : Z;
  depth : Z;
  grid : ndarray;
  start : coord;
  end_ : coord
}.

(** [Maze3D.__init__]. *)
Definition Maze3D_init (width height depth : Z) : outcome Maze3D :=
  g ← ones depth height width;
  Ok {| width := width; height := height; depth := depth; grid := g;
        start := (0, 0, 0);
        end_ := (depth - 1, height - 1, width - 1) |}.

(** [self.grid[c] = v]: the only way a method changes the object. *)
Definition grid_assign (self : Maze3D) (c : coord) (v : Z) : outcome Maze3D :=
  g ← indexed (setitem (grid self) c v);
  Ok {| width := width self; height := height self; depth := depth self;
        grid := g; start := start self; end_ := end_ self |}.

(** [self.grid[c]]. *)
Definition grid_read (self : Maze3D) (c : coord) : outcome Z :=
  indexed (getitem (grid self) c).

(** [0 <= nz < self.depth and 0 <= ny < self.height and 0 <= nx < self.width]. *)
Definition in_bounds (self : Maze3D) (c : coord) : bool :=
  let '(z, y, x) := c in
  bool_decide (0 ≤ z < depth self) && bool_decide (0 ≤ y < height self)
  && bool_decide (0 ≤ x < width self).

(** The six directions [(dz, dy, dx)], in the order of the source. *)
Definition directions : list coord :=
  [ (0, -1, 0); (0, 1, 0);
    (0, 0, -1); (0, 0, 1);
    (-1, 0, 0); (1, 0, 0) ].

(** ** The random source

    The module [random] is a hidden generator.  It is made explicit as the
    sequence of numbers still to be drawn; every behaviour of
    [random.choice] and [random.randint] is the behaviour under some
    sequence. *)
Abbreviation Random := (nat → nat).

Definition draw (r : Random) : nat * Random := (r 0%nat, λ n, r (S n)).

(** [random.choice(l)]. *)
Definition choice {A} (l : list A) (r : Random) : outcome (A * Random) :=
  match l with
  | [] => Raise IndexError
  | a :: _ =>
      let '(k, r') := draw r in
      Ok (nth (k mod length l)%nat l a, r')
  end.

(** [random.randint(a, b)], both ends included. *)
Definition randint (a b : Z) (r : Random) : outcome (Z * Random) :=
  if bool_decide (a ≤ b) then
    let '(k, r') := draw r in
    Ok (a + Z.of_nat k mod (b - a + 1), r')
  else Raise ValueError.

(** ** [generate_maze] *)

(** The state of the carving loop: the object, the stack (its top is the
    head of the list, [stack[-1]] in the source), the visited cells and
    the random source.  [visited_cells] is kept as the list of the cells
    in the order [visited_cells.add] received them, latest first; a cell
    is in the set when it is in the list. *)
Record carve_state : Type := mkCarve {
  cs_self : Maze3D;
  cs_stack : list coord;
  cs_visited : list coord;
  cs_rng : Random
}.

(** The list [neighbors] built by the inner [for]: the cells two steps
    away that are inside the grid and not visited, each with its
    direction. *)
Definition neighbors_of (self : Maze3D) (visited_cells : list coord)
    (c : coord) : list (coord * coord) :=
  let '(z, y, x) := c in
  List.filter
    (λ nd : coord * coord,
       in_bounds self nd.1 && negb (bool_decide (nd.1 ∈ visited_cells)))
    (List.map
       (λ d : coord, let '(dz, dy, dx) := d in
                     ((z + dz * 2, y + dy * 2, x + dx * 2), d))
       directions).

(** One iteration of [while stack]; [None] when the stack is empty and the
    loop is left. *)
Definition carve_step (st : carve_state) : outcome (option carve_state) :=
  match cs_stack st with
  | [] => Ok None
  | (z, y, x) :: rest =>
      match neighbors_of (cs_self st) (cs_visited st) (z, y, x) with
      | [] =>
          Ok (Some {| cs_self := cs_self st; cs_stack := rest;
                      cs_visited := cs_visited st; cs_rng := cs_rng st |})
      | neighbors =>
          '(n, (dz, dy, dx), rng) ← choice neighbors (cs_rng st);
          self1 ← grid_assign (cs_self st) (z + dz, y + dy, x + dx) 0;
          self2 ← grid_assign self1 n 0;
          Ok (Some {| cs_self := self2; cs_stack := n :: cs_stack st;
                      cs_visited := n :: cs_visited st; cs_rng := rng |})
      end
  end.

(** [while stack], for at most [fuel] iterations. *)
Fixpoint carve_loop (fuel : nat) (st : carve_state) : outcome carve_state :=
  match fuel with
  | O => OutOfFuel
  | S fuel' =>
      r ← carve_step st;
      match r with
      | None => Ok st
      | Some st' => carve_loop fuel' st'
      end
  end.

(** The number of cells of the declared volume. *)
Definition cells (self : Maze3D) : nat :=
  (Z.to_nat (depth self) * Z.to_nat (height self) * Z.to_nat (width self))%nat.

(** Lines 28 to 59: the initialisation and the carving loop.  The fuel
    bounds the iterations: each one visits a new cell or leaves one for
    good, and the loop is shown never to use it up. *)
Definition carve (self : Maze3D) (rng : Random) : outcome carve_state :=
  self1 ← grid_assign self (start self) 0;
  carve_loop (2 * cells self + 1)
    {| cs_self := self1; cs_stack := [start self];
       cs_visited := [start self]; cs_rng := rng |}.

(** Lines 66 to 70: [n] random openings. *)
Fixpoint random_openings (n : nat) (self : Maze3D) (rng : Random)
    : outcome (Maze3D * Random) :=
  match n with
  | O => Ok (self, rng)
  | S n' =>
      '(z, r1) ← randint 0 (depth self - 1) rng;
      '(y, r2) ← randint 0 (height self - 1) r1;
      '(x, r3) ← randint 0 (width self - 1) r2;
      self' ← grid_assign self (z, y, x) 0;
      random_openings n' self' r3
  end.

Definition generate_maze (self : Maze3D) (rng : Random)
    : outcome (Maze3D * Random) :=
  st ← carve self rng;
  self1 ← grid_assign (cs_self st) (start (cs_self st)) 0;
  self2 ← grid_assign self1 (end_ self1) 0;
  random_openings
    (Z.to_nat (Z.min 5 (width self2 * height self2 * depth self2 / 20)))
    self2 (cs_rng st).

(** ** [solve_maze] *)

(** The locals of the search: the deque [queue] (its left end is the head
    of the list), the set [visited] and the dict [parent], whose values
    are a coordinate or [None]. *)
Record bfs_state : Type := mkBfs {
  queue : list coord;
  visited : gset coord;
  parent : gmap coord (option coord)
}.

(** The body of the inner [for] for one direction. *)
Definition visit (self : Maze3D) (c : coord) (st : bfs_state) (d : coord)
    : outcome bfs_state :=
  let '(z, y, x) := c in
  let '(dz, dy, dx) := d in
  let n := (z + dz, y + dy, x + dx) in
  if in_bounds self n then
    v ← grid_read self n;
    if bool_decide (v = 0) && negb (bool_decide (n ∈ visited st)) then
      Ok {| queue := queue st ++ [n];
            visited := {[n]} ∪ visited st;
            parent := <[n := Some c]> (parent st) |}
    else Ok st
  else Ok st.

(** The inner [for], over the directions [ds]. *)
Fixpoint visit_all (self : Maze3D) (c : coord) (ds : list coord)
    (st : bfs_state) : outcome bfs_state :=
  match ds with
  | [] => Ok st
  | d :: ds' => st' ← visit self c st d; visit_all self c ds' st'
  end.

(** The loop [while current is not None] followed by [path[::-1]]. *)
Fixpoint reconstruct (fuel : nat) (parent : gmap coord (option coord))
    (current : option coord) (path : list coord) : outcome (list coord) :=
  match current with
  | None => Ok (reverse path)
  | Some c =>
      match fuel with
      | O => OutOfFuel
      | S fuel' =>
          match parent !! c with
          | None => Raise KeyError
          | Some nxt => reconstruct fuel' parent nxt (path ++ [c])
          end
      end
  end.

(** [while queue]; the object is returned with the path, as the caller
    finds it after the call. *)
Fixpoint bfs_loop (fuel : nat) (self : Maze3D) (st : bfs_state)
    : outcome (list coord * Maze3D) :=
  match fuel with
  | O => OutOfFuel
  | S fuel' =>
      match queue st with
      | [] => Ok ([], self)
      | c :: q =>
          if bool_decide (c = end_ self) then
            path ← reconstruct (size (parent st)) (parent st)
                     (Some (end_ self)) [];
            Ok (path, self)
          else
            st' ← visit_all self c directions
                    {| queue := q; visited := visited st;
                       parent := parent st |};
            bfs_loop fuel' self st'
      end
  end.

(** The fuel bounds the iterations, one for each cell that enters the
    queue; the loop is shown never to use it up. *)
Definition solve_maze (self : Maze3D) : outcome (list coord * Maze3D) :=
  bfs_loop (cells self + 2) self
    {| queue := [start self]; visited := {[start self]};
       parent := {[start self := None]} |}.

(** ** Well-formed objects *)

(** The array has [d] planes of [h] rows of [w] cells. *)
Definition shaped (g : ndarray) (d h w : nat) : Prop :=
  length g = d ∧
  Forall (λ plane, length plane = h ∧ Forall (λ row, length row = w) plane) g.

(** A grid field: the array has the declared shape, and [start] and
    [end] are the corners [__init__] sets. *)
Definition GridField (self : Maze3D) : Prop :=
  shaped (grid self) (Z.to_nat (depth self)) (Z.to_nat (height self))
    (Z.to_nat (width self)) ∧
  start self = (0, 0, 0) ∧
  end_ self = (depth self - 1, height self - 1, width self - 1).

Definition positive (self : Maze3D) : Prop :=
  0 < width self ∧ 0 < height self ∧ 0 < depth self.

(** The cell is Open: the array holds [0] there. *)
Definition Open (self : Maze3D) (c : coord) : Prop :=
  getitem (grid self) c = Some 0.

(** Two objects that differ at most in the contents of the array. *)
Definition same_frame (self self' : Maze3D) : Prop :=
  width self' = width self ∧ height self' = height self ∧
  depth self' = depth self ∧ start self' = start self ∧
  end_ self' = end_ self.

(** ** Vocabulary for [generate_maze] *)

(** The cell [k] steps from [c] in direction [d]. *)
Definition hop (k : Z) (c d : coord) : coord :=
  let '(z, y, x) := c in
  let '(dz, dy, dx) := d in
  (z + dz * k, y + dy * k, x + dx * k).

(** The two ways an iteration of the carving loop continues: it backtracks,
    or it carves the wall and the cell behind it. *)
Inductive carve_trans : carve_state → carve_state → Prop :=
| carve_pop self c rest vis rng :
    neighbors_of self vis c = [] →
    carve_trans (mkCarve self (c :: rest) vis rng) (mkCarve self rest vis rng)
| carve_push self c rest vis rng n d rng' self1 self2 :
    (n, d) ∈ neighbors_of self vis c →
    grid_assign self (hop 1 c d) 0 = Ok self1 →
    grid_assign self1 n 0 = Ok self2 →
    carve_trans (mkCarve self (c :: rest) vis rng)
                (mkCarve self2 (n :: c :: rest) (n :: vis) rng').

(** Every coordinate inside the declared volume. *)
Definition all_cells (self : Maze3D) : list coord :=
  list_prod (list_prod (seqZ 0 (depth self)) (seqZ 0 (height self)))
            (seqZ 0 (width self)).

(** The cells that distance-2 axial steps inside the grid reach from
    [start]. *)
Inductive lattice_reach (self : Maze3D) : coord → Prop :=
| lattice_start : lattice_reach self (start self)
| lattice_hop c d :
    lattice_reach self c → d ∈ directions →
    in_bounds self (hop 2 c d) = true →
    lattice_reach self (hop 2 c d).

(** What holds between two iterations of the carving loop, whatever the
    array held at the call. *)
Record carve_inv (self0 : Maze3D) (st : carve_state) : Prop := {
  ci_field : GridField (cs_self st);
  ci_frame : same_frame self0 (cs_self st);
  ci_bounds : ∀ c, c ∈ cs_visited st → in_bounds self0 c = true;
  ci_stack : ∀ c, c ∈ cs_stack st → c ∈ cs_visited st;
  ci_nodup : NoDup (cs_visited st);
  ci_start : start self0 ∈ cs_visited st;
  ci_closed : ∀ c, c ∈ cs_visited st →
      c ∈ cs_stack st ∨
      ∀ d, d ∈ directions → in_bounds self0 (hop 2 c d) = true →
           hop 2 c d ∈ cs_visited st
}.

(** From [g] to [g'] a cell keeps its value or becomes Open. *)
Definition only_opens (g g' : ndarray) : Prop :=
  ∀ c, getitem g' c = getitem g c ∨ getitem g' c = Some 0.

(** ** Paths in a graph of cells *)

(** Two coordinates differ by exactly 1 in exactly one axis and agree in
    the other two. *)
Definition adjacent (a b : coord) : Prop :=
  let '(z, y, x) := a in
  let '(z', y', x') := b in
  (Z.abs (z' - z) = 1 ∧ y' = y ∧ x' = x) ∨
  (z' = z ∧ Z.abs (y' - y) = 1 ∧ x' = x) ∨
  (z' = z ∧ y' = y ∧ Z.abs (x' - x) = 1).

#[export] Instance adjacent_dec a b : Decision (adjacent a b).
Proof. destruct a as [[??]?], b as [[??]?]. unfold adjacent. apply _. Defined.

(** Every consecutive pair of the sequence is related. *)
Fixpoint linked {A} (R : A → A → Prop) (p : list A) : Prop :=
  match p with
  | a :: t => match t with b :: _ => R a b | [] => True end ∧ linked R t
  | [] => True
  end.

(** [p] leads from [a] to [b] through vertices of [P]. *)
Definition path {A} (R : A → A → Prop) (P : A → Prop) (a b : A)
    (p : list A) : Prop :=
  head p = Some a ∧ last p = Some b ∧ Forall P p ∧ linked R p.

Definition simple_path {A} (R : A → A → Prop) (P : A → Prop) (a b : A)
    (p : list A) : Prop :=
  path R P a b p ∧ NoDup p.

(** The graph on the vertices [P] is a tree: any two vertices are joined
    by a simple path, and by one only. *)
Definition is_tree {A} (R : A → A → Prop) (P : A → Prop) : Prop :=
  (∀ a b, P a → P b → ∃ p, simple_path R P a b p) ∧
  (∀ a b p q, simple_path R P a b p → simple_path R P a b q → p = q).

(** ** Vocabulary for the carved tree *)

(** The cell lies on the lattice of [(0, 0, 0)]: its coordinates are even. *)
Definition on_lattice (c : coord) : Prop :=
  let '(z, y, x) := c in z mod 2 = 0 ∧ y mod 2 = 0 ∧ x mod 2 = 0.

(** What holds between two iterations of the carving loop when it starts
    from an array without Open cells: the visited cells are Open lattice
    cells, every other Open cell is the wall between two of them, and the
    Open cells form a tree. *)
Record tree_inv (st : carve_state) : Prop := {
  ti_lattice : ∀ c, c ∈ cs_visited st → on_lattice c ∧ Open (cs_self st) c;
  ti_open : ∀ c, Open (cs_self st) c →
      c ∈ cs_visited st ∨
      ∃ a d, d ∈ directions ∧ c = hop 1 a d ∧
             a ∈ cs_visited st ∧ hop 2 a d ∈ cs_visited st;
  ti_tree : is_tree adjacent (Open (cs_self st))
}.

(** ** Vocabulary for [solve_maze] *)

(** The search may step into the cell: it is inside the declared volume
    and Open. *)
Definition enterable (self : Maze3D) (c : coord) : Prop :=
  in_bounds self c = true ∧ Open self c.

(** [p] is a sequence of unit axial steps from [a] to [b], each into a
    cell the search may enter.  The first cell is where the walk stands
    at the beginning; nothing is asked of it. *)
Definition walk (self : Maze3D) (a b : coord) (p : list coord) : Prop :=
  head p = Some a ∧ last p = Some b ∧ linked adjacent p ∧
  Forall (enterable self) (tail p).

(** [n] such steps lead from [start] to [c]. *)
Inductive reach (self : Maze3D) : nat → coord → Prop :=
| reach_start : reach self 0 (start self)
| reach_step n c c' :
    reach self n c → adjacent c c' → enterable self c' →
    reach self (S n) c'.

(** [n] is the least number of steps that lead from [start] to [c]. *)
Definition level (self : Maze3D) (n : nat) (c : coord) : Prop :=
  reach self n c ∧ ∀ m, (m < n)%nat → ¬ reach self m c.

(** The links of [parent] lead from [c] to [start] in [n] steps. *)
Inductive chain (self : Maze3D) (parent : gmap coord (option coord))
    : nat → coord → Prop :=
| chain_root :
    parent !! start self = Some None → chain self parent 0 (start self)
| chain_link n c c' :
    parent !! c' = Some (Some c) → adjacent c c' → enterable self c' →
    chain self parent n c → chain self parent (S n) c'.

(** All that the search may enter next to [c] has been visited. *)
Definition expanded (self : Maze3D) (st : bfs_state) (c : coord) : Prop :=
  ∀ c', adjacent c c' → enterable self c' → c' ∈ visited st.

(** What holds of the locals of the search at any point: the queue is
    [front], cells [k] steps from the start, followed by [back], cells
    [k + 1] steps from it; the visited cells are the keys of [parent],
    each with a chain of links as long as its distance; and every cell
    at most [k] steps away is visited. *)
Record bfs_core (self : Maze3D) (k : nat) (front back : list coord)
    (st : bfs_state) : Prop := {
  bc_queue : queue st = front ++ back;
  bc_front : ∀ c, c ∈ front → level self k c;
  bc_back : ∀ c, c ∈ back → level self (S k) c;
  bc_nodup : NoDup (queue st);
  bc_dom : visited st = dom (parent st);
  bc_queue_visited : ∀ c, c ∈ queue st → c ∈ visited st;
  bc_visited : ∀ c, c ∈ visited st →
      ∃ n, level self n c ∧ chain self (parent st) n c;
  bc_complete : ∀ n c, reach self n c → (n ≤ k)%nat → c ∈ visited st;
  bc_bounds : ∀ c, c ∈ visited st → c = start self ∨ in_bounds self c = true
}.

(** Between two iterations of [while queue]. *)
Record bfs_inv (self : Maze3D) (k : nat) (front back : list coord)
    (st : bfs_state) : Prop := {
  bi_core : bfs_core self k front back st;
  bi_closed : ∀ c, c ∈ visited st → c ∉ queue st → expanded self st c;
  bi_size : (k + length (queue st) ≤ size (visited st))%nat;
  bi_size_next :
    front = [] → (S k + length (queue st) ≤ size (visited st))%nat
}.

(** Inside the [for] over the directions, while [c] is expanded and the
    directions [ds] are done. *)
Record bfs_mid (self : Maze3D) (k : nat) (c : coord) (ds : list coord)
    (front back : list coord) (st : bfs_state) : Prop := {
  bm_core : bfs_core self k front back st;
  bm_cur : c ∈ visited st ∧ (c ∉ queue st) ∧ level self k c;
  bm_closed : ∀ x, x ∈ visited st → x ∉ queue st → x ≠ c → expanded self st x;
  bm_done : ∀ d, d ∈ ds → enterable self (hop 1 c d) →
      hop 1 c d ∈ visited st;
  bm_size : (S k + length (queue st) ≤ size (visited st))%nat
}.

(** ** [main]: the generation loop *)

(** How the [for] loop of [main] ends: with [break], after which the maze
    and its path go to [visualize], or through its [else] branch, after
    which [main] returns without a maze. *)
Inductive generation : Type :=
| Solved (attempt : Z) (maze : Maze3D) (path : list coord)
| Exhausted.

Definition max_attempts : Z := 10.

(** The body of the loop up to the test of [path]: a new object, carved
    and searched.  The messages printed on the way are left out. *)
Definition attempt_body (rng : Random)
    : outcome (Maze3D * list coord * Random) :=
  maze ← Maze3D_init 9 9 5;
  '(maze1, rng1) ← generate_maze maze rng;
  '(path, maze2) ← solve_maze maze1;
  Ok (maze2, path, rng1).

(** [for attempt in range: ... if path: break ... else: return], with
    the body of the loop up to the test of [path] as [body]. *)
Fixpoint attempts (body : Random → outcome (Maze3D * list coord * Random))
    (range : list Z) (rng : Random) : outcome (generation * Random) :=
  match range with
  | [] => Ok (Exhausted, rng)
  | attempt :: rest =>
      '(maze, path, rng') ← body rng;
      match path with
      | [] => attempts body rest rng'
      | _ :: _ => Ok (Solved attempt maze path, rng')
      end
  end.

(** The loop of [main]: its body, over [range(1, max_attempts + 1)]. *)
Definition main (rng : Random) : outcome (generation * Random) :=
  attempts attempt_body (seqZ 1 max_attempts) rng.

(** Consecutive passes through [body], from one state of the random
    source to another, with the maze and path of each. *)
Inductive tried (body : Random → outcome (Maze3D * list coord * Random))
    : Random → list (Maze3D * list coord) → Random → Prop :=
| tried_nil rng : tried body rng [] rng
| tried_cons rng maze path rng1 log rng2 :
    body rng = Ok (maze, path, rng1) →
    tried body rng1 log rng2 →
    tried body rng ((maze, path) :: log) rng2.

(** The body of the loop for a maze of other dimensions. *)
Definition attempt_at (width height depth : Z) (rng : Random)
    : outcome (Maze3D * list coord * Random) :=
  maze ← Maze3D_init width height depth;
  '(maze1, rng1) ← generate_maze maze rng;
  '(path, maze2) ← solve_maze maze1;
  Ok (maze2, path, rng1).

(** ** Fields used as examples *)

(** A corridor of three Open cells. *)
Definition corridor : Maze3D :=
  {| width := 3; height := 1; depth := 1; grid := [[[0; 0; 0]]];
     start := (0, 0, 0); end_ := (0, 0, 2) |}.

(** The way along the corridor. *)
Definition corridor_path : list coord := [(0, 0, 0); (0, 0, 1); (0, 0, 2)].

(** A corridor whose middle cell is Blocked. *)
Definition sealed : Maze3D :=
  {| width := 3; height := 1; depth := 1; grid := [[[0; 1; 0]]];
     start := (0, 0, 0); end_ := (0, 0, 2) |}.

(** Two cells, of which the start is Blocked. *)
Definition blocked_start : Maze3D :=
  {| width := 2; height := 1; depth := 1; grid := [[[1; 0]]];
     start := (0, 0, 0); end_ := (0, 0, 1) |}.

(** A corridor whose start is Blocked. *)
Definition blocked_entry : Maze3D :=
  {| width := 3; height := 1; depth := 1; grid := [[[1; 0; 0]]];
     start := (0, 0, 0); end_ := (0, 0, 2) |}.

(** A freshly constructed field of 3 x 3 x 3 cells, all Blocked. *)
Definition cube : Maze3D :=
  {| width := 3; height := 3; depth := 3;
     grid := replicate 3 (replicate 3 (replicate 3 1));
     start := (0, 0, 0); end_ := (2, 2, 2) |}.

(** A single cell, a wall, that is both [start] and [end]. *)
Definition one_wall : Maze3D :=
  {| width := 1; height := 1; depth := 1; grid := [[[1]]];
     start := (0, 0, 0); end_ := (0, 0, 0) |}.

(** A freshly constructed field of 2 x 2 x 2 cells, all Blocked. *)
Definition small_cube : Maze3D :=
  {| width := 2; height := 2; depth := 2;
     grid := replicate 2 (replicate 2 (replicate 2 1));
     start := (0, 0, 0); end_ := (1, 1, 1) |}.

(** Four cells in a square, all Open. *)
Definition open_square : Maze3D :=
  {| width := 2; height := 2; depth := 1; grid := [[[0; 0]; [0; 0]]];
     start := (0, 0, 0); end_ := (0, 1, 1) |}.

(** The two ways round the square. *)
Definition square_left : list coord := [(0, 0, 0); (0, 1, 0); (0, 1, 1)].
Definition square_right : list coord := [(0, 0, 0); (0, 0, 1); (0, 1, 1)].

(** A random source. *)
Definition counting : Random := λ n, n.

(** Two calls of [solve_maze] in a row on the same object. *)
Definition solve_twice (self : Maze3D)
    : outcome (list coord * list coord * Maze3D) :=
  '(path1, self1) ← solve_maze self;
  '(path2, self2) ← solve_maze self1;
  Ok (path1, path2, self2).

(** ** [visualize] and [_draw_cube]

    The drawing itself belongs to matplotlib.  What the two methods
    compute before they hand over is embedded: the corners and faces of a
    cube, and the sequence of cubes [visualize] asks for. *)

(** The list [vertices] of [_draw_cube]; a vertex [[x, y, z]] is kept as
    a triple. *)
Definition cube_vertices (x y z : Z) : list coord :=
  [ (x, y, z); (x + 1, y, z); (x + 1, y + 1, z); (x, y + 1, z);
    (x, y, z + 1); (x + 1, y, z + 1); (x + 1, y + 1, z + 1);
    (x, y + 1, z + 1) ].

(** The list [faces] of [_draw_cube], each face the vertices at the
    indices the source names. *)
Definition cube_faces (x y z : Z) : list (list coord) :=
  let vertices := cube_vertices x y z in
  let v (i : nat) := nth i vertices (x, y, z) in
  [ [v 0; v 1; v 5; v 4];
    [v 7; v 6; v 2; v 3];
    [v 0; v 3; v 7; v 4];
    [v 1; v 2; v 6; v 5];
    [v 0; v 1; v 2; v 3];
    [v 4; v 5; v 6; v 7] ]%nat.

Inductive colour : Set := gray | green | red.

(** A call [self._draw_cube(ax, x, y, z, color=...)]. *)
Record cube_call : Type := mkCall {
  call_x : Z;
  call_y : Z;
  call_z : Z;
  call_colour : colour
}.

(** A [for] loop over [l] whose body appends calls to the ones made. *)
Fixpoint for_each (l : list Z) (body : Z → outcome (list cube_call))
    : outcome (list cube_call) :=
  match l with
  | [] => Ok []
  | i :: l' =>
      calls ← body i;
      rest ← for_each l' body;
      Ok (calls ++ rest)
  end.

(** The calls of [_draw_cube] that [visualize] makes, in order: a gray
    cube for each cell that holds [1], then the green cube at [start] and
    the red cube at [end].  A cell [(z, y, x)] is drawn at [x, y, z]. *)
Definition visualize_cubes (self : Maze3D) : outcome (list cube_call) :=
  walls ←
    for_each (seqZ 0 (depth self)) (λ z,
      for_each (seqZ 0 (height self)) (λ y,
        for_each (seqZ 0 (width self)) (λ x,
          v ← grid_read self (z, y, x);
          if bool_decide (v = 1) then Ok [mkCall x y z gray] else Ok [])));
  let '(sz, sy, sx) := start self in
  let '(ez, ey, ex) := end_ self in
  Ok (walls ++ [mkCall sx sy sz green; mkCall ex ey ez red]).

(** The dimensions are odd, as the source advises. *)
Definition odd_dimensions (self : Maze3D) : Prop :=
  width self mod 2 = 1 ∧ height self mod 2 = 1 ∧ depth self mod 2 = 1.

(** Generation followed by search, as in the body of [main]'s loop but on
    a given object. *)
Definition generate_and_solve (self : Maze3D) (rng : Random)
    : outcome (list coord * Maze3D * Random) :=
  '(self1, rng1) ← generate_maze self rng;
  '(path, self2) ← solve_maze self1;
  Ok (path, self2, rng1).

(** * Proofs *)

(** ** The array: reading and writing *)

Section Array.
Implicit Types (g : ndarray) (c : coord) (v : Z).

Lemma setitem_is_Some g c v : is_Some (setitem g c v) ↔ is_Some (getitem g c).
Proof.
  destruct c as [[z y] x]. unfold setitem, getitem.
  case_bool_decide; [|done].
  destruct (g !! Z.to_nat z) as [plane|]; simpl; [|done].
  destruct (plane !! Z.to_nat y) as [row|]; simpl; [|done].
  destruct (row !! Z.to_nat x); simpl; by rewrite !is_Some_alt.
Qed.

Lemma getitem_setitem g c v g' c' :
  setitem g c v = Some g' →
  getitem g' c' = if decide (c = c') then Some v else getitem g c'.
Proof.
  destruct c as [[z y] x], c' as [[z' y'] x']. unfold setitem, getitem.
  case_bool_decide as Hc; [|done].
  destruct (g !! Z.to_nat z) as [plane|] eqn:Hp; simpl; [|done].
  destruct (plane !! Z.to_nat y) as [row|] eqn:Hr; simpl; [|done].
  destruct (row !! Z.to_nat x) as [old|] eqn:Ho; simpl; [|done].
  intros [= <-].
  apply lookup_lt_Some in Hp as Hp', Hr as Hr', Ho as Ho'.
  case_bool_decide as Hc'.
  - destruct (decide (z = z')) as [->|Hz].
    + rewrite list_lookup_insert_eq by done. simpl.
      destruct (decide (y = y')) as [->|Hy].
      * rewrite list_lookup_insert_eq by done. simpl.
        destruct (decide (x = x')) as [->|Hx].
        -- rewrite list_lookup_insert_eq by done. by rewrite decide_True.
        -- rewrite list_lookup_insert_ne by lia.
           rewrite decide_False by congruence. by rewrite Hp; simpl; rewrite Hr.
      * rewrite list_lookup_insert_ne by lia.
        rewrite decide_False by congruence. by rewrite Hp.
    + rewrite list_lookup_insert_ne by lia.
      by rewrite decide_False by congruence.
  - rewrite decide_False; [done|]. intros [= -> -> ->]. tauto.
Qed.

Lemma getitem_setitem_eq g c v g' :
  setitem g c v = Some g' → getitem g' c = Some v.
Proof. intros H. rewrite (getitem_setitem _ _ _ _ c H). by rewrite decide_True. Qed.

Lemma getitem_setitem_ne g c v g' c' :
  setitem g c v = Some g' → c ≠ c' → getitem g' c' = getitem g c'.
Proof. intros H ?. rewrite (getitem_setitem _ _ _ _ c' H). by rewrite decide_False. Qed.

Lemma shaped_getitem g d h w z y x :
  shaped g d h w →
  is_Some (getitem g (z, y, x)) ↔
  0 ≤ z < Z.of_nat d ∧ 0 ≤ y < Z.of_nat h ∧ 0 ≤ x < Z.of_nat w.
Proof.
  intros [Hd Hg]. unfold getitem. case_bool_decide as Hc.
  - destruct (g !! Z.to_nat z) as [plane|] eqn:Hp; simpl.
    + apply lookup_lt_Some in Hp as Hz.
      apply (Forall_lookup_1 _ _ _ _ Hg) in Hp as [Hh Hpl].
      destruct (plane !! Z.to_nat y) as [row|] eqn:Hr; simpl.
      * apply lookup_lt_Some in Hr as Hy.
        apply (Forall_lookup_1 _ _ _ _ Hpl) in Hr as Hw.
        rewrite lookup_lt_is_Some. lia.
      * apply lookup_ge_None in Hr. rewrite is_Some_alt. lia.
    + apply lookup_ge_None in Hp. rewrite is_Some_alt. lia.
  - rewrite is_Some_alt. lia.
Qed.

Lemma setitem_shaped g c v g' d h w :
  setitem g c v = Some g' → shaped g d h w → shaped g' d h w.
Proof.
  destruct c as [[z y] x]. unfold setitem.
  case_bool_decide as Hc; [|done].
  destruct (g !! Z.to_nat z) as [plane|] eqn:Hp; simpl; [|done].
  destruct (plane !! Z.to_nat y) as [row|] eqn:Hr; simpl; [|done].
  destruct (row !! Z.to_nat x) as [old|] eqn:Ho; simpl; [|done].
  intros [= <-] [Hd Hg]. split; [by rewrite length_insert|].
  apply (Forall_lookup_1 _ _ _ _ Hg) in Hp as [Hh Hpl].
  apply (Forall_lookup_1 _ _ _ _ Hpl) in Hr as Hw.
  apply Forall_insert; [done|]. split; [by rewrite length_insert|].
  apply Forall_insert; [done|]. by rewrite length_insert.
Qed.

Lemma replicate_shaped d h w v :
  shaped (replicate d (replicate h (replicate w v))) d h w.
Proof.
  split; [by rewrite length_replicate|].
  apply Forall_replicate. split; [by rewrite length_replicate|].
  apply Forall_replicate. by rewrite length_replicate.
Qed.
End Array.

(** ** The object: assignments to the array *)

Lemma bind_Ok {A B} (m : outcome A) (f : A → outcome B) b :
  m ≫= f = Ok b ↔ ∃ a, m = Ok a ∧ f a = Ok b.
Proof.
  destruct m; simpl; split; try done; try (by intros (?&?&?)); eauto.
  by intros (? & [= <-] & ?).
Qed.

Lemma indexed_Ok {A} (o : option A) a : indexed o = Ok a ↔ o = Some a.
Proof. destruct o; simpl; naive_solver. Qed.

Lemma in_bounds_spec self z y x :
  in_bounds self (z, y, x) = true ↔
  0 ≤ z < depth self ∧ 0 ≤ y < height self ∧ 0 ≤ x < width self.
Proof.
  unfold in_bounds. rewrite !andb_true_iff, !bool_decide_eq_true. tauto.
Qed.

Lemma same_frame_refl self : same_frame self self.
Proof. by repeat split. Qed.

Lemma same_frame_trans a b c : same_frame a b → same_frame b c → same_frame a c.
Proof. unfold same_frame. intros (?&?&?&?&?) (?&?&?&?&?). repeat split; congruence. Qed.

Lemma same_frame_in_bounds self self' c :
  same_frame self self' → in_bounds self' c = in_bounds self c.
Proof.
  intros (Hw&Hh&Hd&_). destruct c as [[z y] x]. unfold in_bounds.
  by rewrite Hw, Hh, Hd.
Qed.

Lemma GridField_getitem self c :
  GridField self → is_Some (getitem (grid self) c) ↔ in_bounds self c = true.
Proof.
  intros [Hs _]. destruct c as [[z y] x].
  rewrite (shaped_getitem _ _ _ _ _ _ _ Hs), in_bounds_spec. lia.
Qed.

Lemma grid_assign_inv self c v self' :
  grid_assign self c v = Ok self' →
  setitem (grid self) c v = Some (grid self') ∧ same_frame self self'.
Proof.
  unfold grid_assign. rewrite bind_Ok. intros (g & Hg%indexed_Ok & [= <-]).
  by repeat split.
Qed.

Lemma grid_assign_GridField self c v self' :
  grid_assign self c v = Ok self' → GridField self → GridField self'.
Proof.
  intros [Hset (Hw&Hh&Hd&Hs&He)]%grid_assign_inv (Hsh&H0&H1).
  unfold GridField. rewrite Hw, Hh, Hd, Hs, He.
  eauto using setitem_shaped.
Qed.

Lemma grid_assign_ok self c v :
  GridField self → in_bounds self c = true →
  ∃ self', grid_assign self c v = Ok self'.
Proof.
  intros Hf Hb. apply (GridField_getitem _ _ Hf) in Hb.
  apply (setitem_is_Some _ _ v) in Hb as [g Hg].
  unfold grid_assign. rewrite Hg. simpl. eauto.
Qed.

Lemma grid_assign_Open self c self' :
  grid_assign self c 0 = Ok self' → Open self' c.
Proof. intros [H _]%grid_assign_inv. by eapply getitem_setitem_eq. Qed.

Lemma only_opens_refl g : only_opens g g.
Proof. by left. Qed.

Lemma only_opens_trans g1 g2 g3 :
  only_opens g1 g2 → only_opens g2 g3 → only_opens g1 g3.
Proof.
  intros H12 H23 c. destruct (H23 c) as [->|]; [apply H12|by right].
Qed.

Lemma only_opens_Open self self' c :
  only_opens (grid self) (grid self') → Open self c → Open self' c.
Proof. unfold Open. intros H Hc. destruct (H c) as [->|]; done. Qed.

Lemma grid_assign_only_opens self c self' :
  grid_assign self c 0 = Ok self' → only_opens (grid self) (grid self').
Proof.
  intros [H _]%grid_assign_inv c'.
  rewrite (getitem_setitem _ _ _ _ c' H). case_decide; eauto.
Qed.

(** ** The random source *)

#[global] Arguments choice : simpl never.
#[global] Arguments randint : simpl never.
#[global] Arguments grid_assign : simpl never.

Lemma choice_elem_of {A} (l : list A) r a r' :
  choice l r = Ok (a, r') → a ∈ l.
Proof.
  destruct l as [|a0 l]; [done|]. unfold choice, draw.
  assert (length (a0 :: l) ≠ 0%nat) as Hlen by done.
  revert Hlen. generalize (a0 :: l). intros k Hk [= <- _].
  by apply list_elem_of_In, nth_In, Nat.mod_upper_bound.
Qed.

Lemma choice_ok {A} (l : list A) r : l ≠ [] → ∃ a r', choice l r = Ok (a, r').
Proof. destruct l; [done|]. intros _. unfold choice. simpl. eauto. Qed.

Lemma randint_spec a b r :
  a ≤ b → ∃ k r', randint a b r = Ok (k, r') ∧ a ≤ k ≤ b.
Proof.
  intros Hab. unfold randint. rewrite bool_decide_eq_true_2 by done.
  simpl. eexists _, _. split; [done|].
  pose proof (Z.mod_pos_bound (Z.of_nat (r 0%nat)) (b - a + 1)). lia.
Qed.

(** ** The carving loop *)

Lemma elem_of_directions (d : coord) :
  d ∈ directions ↔
  d = (0, -1, 0) ∨ d = (0, 1, 0) ∨ d = (0, 0, -1) ∨ d = (0, 0, 1) ∨
  d = (-1, 0, 0) ∨ d = (1, 0, 0).
Proof. unfold directions. rewrite !elem_of_cons, elem_of_nil. tauto. Qed.

Lemma elem_of_neighbors_of self vis c n d :
  (n, d) ∈ neighbors_of self vis c ↔
  d ∈ directions ∧ n = hop 2 c d ∧ in_bounds self n = true ∧ n ∉ vis.
Proof.
  destruct c as [[z y] x]. unfold neighbors_of.
  rewrite list_elem_of_In, filter_In, in_map_iff. cbn [fst].
  rewrite andb_true_iff, negb_true_iff, bool_decide_eq_false. split.
  - intros [([[dz dy] dx] & [= <- <-] & Hd%list_elem_of_In) [Hb Hv]]. done.
  - intros (Hd & -> & Hb & Hv). split; [|done].
    exists d. destruct d as [[dz dy] dx]. by rewrite <- list_elem_of_In.
Qed.

Lemma hop_between self c d :
  d ∈ directions → in_bounds self c = true →
  in_bounds self (hop 2 c d) = true → in_bounds self (hop 1 c d) = true.
Proof.
  destruct c as [[z y] x], d as [[dz dy] dx]. rewrite elem_of_directions.
  unfold hop. rewrite !in_bounds_spec. intros Hd ? ?.
  destruct_or!; simplify_eq; lia.
Qed.

Lemma carve_step_spec st r :
  carve_step st = Ok r →
  match r with
  | None => cs_stack st = []
  | Some st' => carve_trans st st'
  end.
Proof.
  destruct st as [self stack vis rng]. unfold carve_step.
  cbn [cs_self cs_stack cs_visited cs_rng].
  destruct stack as [|[[z y] x] rest]; [by intros [= <-]|].
  destruct (neighbors_of self vis (z, y, x)) as [|nd nds] eqn:Hn.
  { intros [= <-]. by constructor. }
  rewrite bind_Ok. intros ([[n [[dz dy] dx]] rng'] & Hc%choice_elem_of & H).
  apply bind_Ok in H as (self1 & H1 & H). apply bind_Ok in H as (self2 & H2 & H).
  injection H as <-. rewrite <- Hn in Hc. eapply carve_push; [done| |done].
  rewrite <- H1. simpl. do 3 f_equal; lia.
Qed.

Lemma carve_trans_inv self0 st st' :
  carve_inv self0 st → carve_trans st st' → carve_inv self0 st'.
Proof.
  intros [Hf Hfr Hb Hs Hn H0 Hcl] Ht. destruct Ht as
    [self c rest vis rng Hnil | self c rest vis rng n d rng' self1 self2 Hin H1 H2];
    simpl in *.
  - split; simpl; try done.
    + intros c' Hc'. apply Hs. by right.
    + intros c' Hc'. destruct (Hcl c' Hc') as [Hst|]; [|by right].
      apply elem_of_cons in Hst as [->|]; [|by left]. right. intros d Hd Hbd.
      destruct (decide (hop 2 c d ∈ vis)) as [|Hnv]; [done|].
      assert ((hop 2 c d, d) ∈ neighbors_of self vis c) as Hx.
      { apply elem_of_neighbors_of.
        by rewrite (same_frame_in_bounds _ _ _ Hfr). }
      rewrite Hnil in Hx. by apply elem_of_nil in Hx.
  - apply elem_of_neighbors_of in Hin as (Hd & -> & Hbn & Hnv).
    rewrite (same_frame_in_bounds _ _ _ Hfr) in Hbn.
    apply grid_assign_inv in H1 as H1'. apply grid_assign_inv in H2 as H2'.
    destruct H1' as [_ Hfr1], H2' as [_ Hfr2].
    split; simpl.
    + eauto using grid_assign_GridField.
    + eauto using same_frame_trans.
    + intros c' [->|]%elem_of_cons; auto.
    + intros c' [->|Hc']%elem_of_cons; [by left|]. right. by apply Hs.
    + by constructor.
    + by right.
    + intros c' [->|Hc']%elem_of_cons; [left; by left|].
      destruct (Hcl c' Hc') as [|Hall]; [left; by right|].
      right. intros d' Hd' Hb'. right. by apply Hall.
Qed.

Lemma carve_inv_rtc self0 st st' :
  carve_inv self0 st → rtc carve_trans st st' → carve_inv self0 st'.
Proof. induction 2; eauto using carve_trans_inv. Qed.

Lemma carve_step_ok self0 st :
  carve_inv self0 st → ∃ r, carve_step st = Ok r.
Proof.
  intros [Hf Hfr Hb Hs Hn H0 Hcl].
  destruct st as [self stack vis rng]. unfold carve_step.
  cbn [cs_self cs_stack cs_visited cs_rng] in *.
  destruct stack as [|[[z y] x] rest]; [by eauto|].
  destruct (neighbors_of self vis (z, y, x)) as [|nd nds] eqn:Hnb; [by eauto|].
  destruct (choice_ok (nd :: nds) rng) as ([n [[dz dy] dx]] & rng' & Hch); [done|].
  rewrite Hch. simpl.
  apply choice_elem_of in Hch. rewrite <- Hnb in Hch.
  apply elem_of_neighbors_of in Hch as (Hd & Hn2 & Hbn & Hnv).
  assert (in_bounds self (z + dz, y + dy, x + dx) = true) as Hw.
  { replace (z + dz, y + dy, x + dx) with (hop 1 (z, y, x) (dz, dy, dx))
      by (simpl; do 3 f_equal; lia).
    apply hop_between; [done| |by rewrite <- Hn2].
    rewrite (same_frame_in_bounds _ _ _ Hfr). apply Hb, Hs. by left. }
  destruct (grid_assign_ok self _ 0 Hf Hw) as [self1 H1]. rewrite H1. simpl.
  apply grid_assign_inv in H1 as H1'. destruct H1' as [_ Hfr1].
  rewrite <- (same_frame_in_bounds _ _ _ Hfr1) in Hbn.
  destruct (grid_assign_ok self1 n 0) as [self2 H2];
    [by eauto using grid_assign_GridField|done|].
  rewrite H2. simpl. eauto.
Qed.

Lemma carve_loop_rtc fuel st st' :
  carve_loop fuel st = Ok st' → rtc carve_trans st st' ∧ cs_stack st' = [].
Proof.
  revert st. induction fuel as [|fuel IH]; intros st; [done|]. simpl.
  rewrite bind_Ok. intros ([st1|] & Hs%carve_step_spec & H).
  - destruct (IH _ H). split; [by eapply rtc_l|done].
  - injection H as <-. done.
Qed.

Lemma elem_of_all_cells self c : c ∈ all_cells self ↔ in_bounds self c = true.
Proof.
  destruct c as [[z y] x]. unfold all_cells.
  rewrite list_elem_of_In, !in_prod_iff, <- !list_elem_of_In, !elem_of_seqZ.
  rewrite in_bounds_spec. lia.
Qed.

Lemma length_all_cells self : length (all_cells self) = cells self.
Proof. unfold all_cells, cells. by rewrite !length_prod, !length_seqZ. Qed.

Lemma carve_visited_length self0 st :
  carve_inv self0 st → (length (cs_visited st) ≤ cells self0)%nat.
Proof.
  intros Hi. rewrite <- length_all_cells. apply submseteq_length.
  apply NoDup_submseteq; [apply (ci_nodup _ _ Hi)|].
  intros c Hc. apply elem_of_all_cells. by apply (ci_bounds _ _ Hi).
Qed.

Lemma carve_trans_measure st st' :
  carve_trans st st' →
  (2 * length (cs_visited st) + S (length (cs_stack st'))
   = 2 * length (cs_visited st') + length (cs_stack st))%nat.
Proof. destruct 1; simpl; lia. Qed.

Lemma carve_loop_ok self0 fuel st :
  carve_inv self0 st →
  (2 * cells self0 + length (cs_stack st)
   < 2 * length (cs_visited st) + fuel)%nat →
  ∃ st', carve_loop fuel st = Ok st'.
Proof.
  revert st. induction fuel as [|fuel IH]; intros st Hi Hm.
  { pose proof (carve_visited_length _ _ Hi). lia. }
  simpl. destruct (carve_step_ok _ _ Hi) as [r Hr]. rewrite Hr. simpl.
  apply carve_step_spec in Hr. destruct r as [st1|]; [|by eauto].
  apply IH; [by eapply carve_trans_inv|].
  apply carve_trans_measure in Hr. lia.
Qed.

Lemma GridField_start_in_bounds self :
  GridField self → positive self → in_bounds self (start self) = true.
Proof.
  intros (_ & -> & _) (?&?&?). apply in_bounds_spec. lia.
Qed.

Lemma GridField_end_in_bounds self :
  GridField self → positive self → in_bounds self (end_ self) = true.
Proof.
  intros (_ & _ & ->) (?&?&?). apply in_bounds_spec. lia.
Qed.

Lemma carve_inv_init self self1 rng :
  GridField self → positive self →
  grid_assign self (start self) 0 = Ok self1 →
  carve_inv self (mkCarve self1 [start self] [start self] rng).
Proof.
  intros Hf Hp H1. apply grid_assign_inv in H1 as H1'. destruct H1' as [_ Hfr].
  split; simpl.
  - eauto using grid_assign_GridField.
  - done.
  - intros c ->%list_elem_of_singleton. by apply GridField_start_in_bounds.
  - done.
  - apply NoDup_singleton.
  - by left.
  - intros c Hc. by left.
Qed.

(** The carving part of [generate_maze] runs to the end: the first
    assignment succeeds, the loop stops with an empty stack, and the
    state it stops in is reached by carving transitions. *)
Lemma carve_run self rng :
  GridField self → positive self →
  ∃ self1 st,
    grid_assign self (start self) 0 = Ok self1 ∧
    carve self rng = Ok st ∧
    rtc carve_trans (mkCarve self1 [start self] [start self] rng) st ∧
    cs_stack st = [] ∧ carve_inv self st.
Proof.
  intros Hf Hp.
  destruct (grid_assign_ok self (start self) 0 Hf) as [self1 H1];
    [by apply GridField_start_in_bounds|].
  pose proof (carve_inv_init _ _ rng Hf Hp H1) as Hi.
  destruct (carve_loop_ok self (2 * cells self + 1) _ Hi) as [st Hst];
    [simpl; lia|].
  exists self1, st. unfold carve. rewrite H1. simpl.
  destruct (carve_loop_rtc _ _ _ Hst) as [Hrtc Hnil].
  eauto 10 using carve_inv_rtc.
Qed.

(** ** Writes only open cells *)

Lemma carve_trans_only_opens st st' :
  carve_trans st st' →
  only_opens (grid (cs_self st)) (grid (cs_self st')) ∧
  same_frame (cs_self st) (cs_self st').
Proof.
  destruct 1 as [|self c rest vis rng n d rng' self1 self2 _ H1 H2]; simpl.
  - split; [apply only_opens_refl|apply same_frame_refl].
  - split.
    + eapply only_opens_trans; by eapply grid_assign_only_opens.
    + eapply same_frame_trans; by eapply grid_assign_inv.
Qed.

Lemma carve_rtc_only_opens st st' :
  rtc carve_trans st st' →
  only_opens (grid (cs_self st)) (grid (cs_self st')) ∧
  same_frame (cs_self st) (cs_self st').
Proof.
  induction 1 as [|st st1 st2 H1 _ [IHo IHf]].
  - split; [apply only_opens_refl|apply same_frame_refl].
  - apply carve_trans_only_opens in H1 as [Ho Hf].
    split; [by eapply only_opens_trans|by eapply same_frame_trans].
Qed.

Lemma carve_only_opens self rng st :
  carve self rng = Ok st →
  only_opens (grid self) (grid (cs_self st)) ∧ same_frame self (cs_self st).
Proof.
  unfold carve. rewrite bind_Ok. intros (self1 & H1 & [Hr _]%carve_loop_rtc).
  apply carve_rtc_only_opens in Hr as [Ho Hf]. simpl in *.
  split.
  - eapply only_opens_trans; [by eapply grid_assign_only_opens|done].
  - eapply same_frame_trans; [by eapply grid_assign_inv|done].
Qed.

Lemma random_openings_only_opens n self rng self' rng' :
  random_openings n self rng = Ok (self', rng') →
  only_opens (grid self) (grid self') ∧ same_frame self self'.
Proof.
  revert self rng. induction n as [|n IH]; intros self rng; simpl.
  { intros [= <- <-]. split; [apply only_opens_refl|apply same_frame_refl]. }
  rewrite bind_Ok. intros ([z r1] & _ & H).
  apply bind_Ok in H as ([y r2] & _ & H).
  apply bind_Ok in H as ([x r3] & _ & H).
  apply bind_Ok in H as (self1 & H1 & H).
  apply IH in H as [Ho Hf]. split.
  - eapply only_opens_trans; [by eapply grid_assign_only_opens|done].
  - eapply same_frame_trans; [by eapply grid_assign_inv|done].
Qed.

Lemma generate_maze_inv self rng self' rng' :
  generate_maze self rng = Ok (self', rng') →
  ∃ st self1 self2 n,
    carve self rng = Ok st ∧
    grid_assign (cs_self st) (start (cs_self st)) 0 = Ok self1 ∧
    grid_assign self1 (end_ self1) 0 = Ok self2 ∧
    random_openings n self2 (cs_rng st) = Ok (self', rng').
Proof.
  unfold generate_maze. rewrite bind_Ok. intros (st & Hst & H).
  apply bind_Ok in H as (self1 & H1 & H).
  apply bind_Ok in H as (self2 & H2 & H). eauto 10.
Qed.

Lemma generate_maze_only_opens self rng self' rng' :
  generate_maze self rng = Ok (self', rng') →
  only_opens (grid self) (grid self') ∧ same_frame self self'.
Proof.
  intros (st & self1 & self2 & n & Hst & H1 & H2 & Hr)%generate_maze_inv.
  apply carve_only_opens in Hst as [Ho0 Hf0].
  apply random_openings_only_opens in Hr as [Ho3 Hf3].
  split.
  - eapply only_opens_trans; [done|].
    eapply only_opens_trans; [by eapply grid_assign_only_opens|].
    eapply only_opens_trans; [by eapply grid_assign_only_opens|done].
  - eapply same_frame_trans; [done|].
    eapply same_frame_trans; [by eapply grid_assign_inv|].
    eapply same_frame_trans; [by eapply grid_assign_inv|done].
Qed.

(** ** The whole of [generate_maze] runs *)

Lemma same_frame_positive self self' :
  same_frame self self' → positive self → positive self'.
Proof. intros (Hw&Hh&Hd&_). unfold positive. by rewrite Hw, Hh, Hd. Qed.

Lemma random_openings_run n self rng :
  GridField self → positive self →
  ∃ self' rng', random_openings n self rng = Ok (self', rng') ∧ GridField self'.
Proof.
  revert self rng. induction n as [|n IH]; intros self rng Hf Hp; simpl.
  { eauto. }
  pose proof Hp as (?&?&?).
  destruct (randint_spec 0 (depth self - 1) rng) as (z & r1 & -> & Hz); [lia|].
  simpl.
  destruct (randint_spec 0 (height self - 1) r1) as (y & r2 & -> & Hy); [lia|].
  simpl.
  destruct (randint_spec 0 (width self - 1) r2) as (x & r3 & -> & Hx); [lia|].
  simpl.
  destruct (grid_assign_ok self (z, y, x) 0 Hf) as [self1 Hs1].
  { apply in_bounds_spec. lia. }
  rewrite Hs1. simpl. apply IH.
  - by eapply grid_assign_GridField.
  - eapply same_frame_positive; [by eapply grid_assign_inv|done].
Qed.

Lemma generate_maze_run self rng :
  GridField self → positive self →
  ∃ self' rng',
    generate_maze self rng = Ok (self', rng') ∧ GridField self' ∧
    same_frame self self' ∧
    Open self' (start self') ∧ Open self' (end_ self').
Proof.
  intros Hf Hp.
  destruct (carve_run self rng Hf Hp) as (s0 & st & _ & Hst & _ & _ & Hi).
  destruct Hi as [Hfst Hfr _ _ _ _ _].
  pose proof (same_frame_positive _ _ Hfr Hp) as Hpst.
  destruct (grid_assign_ok (cs_self st) (start (cs_self st)) 0 Hfst)
    as [self1 H1]; [by apply GridField_start_in_bounds|].
  pose proof (grid_assign_GridField _ _ _ _ H1 Hfst) as Hf1.
  apply grid_assign_inv in H1 as H1'. destruct H1' as [_ Hfr1].
  pose proof (same_frame_positive _ _ Hfr1 Hpst) as Hp1.
  destruct (grid_assign_ok self1 (end_ self1) 0 Hf1)
    as [self2 H2]; [by apply GridField_end_in_bounds|].
  pose proof (grid_assign_GridField _ _ _ _ H2 Hf1) as Hf2.
  apply grid_assign_inv in H2 as H2'. destruct H2' as [_ Hfr2].
  pose proof (same_frame_positive _ _ Hfr2 Hp1) as Hp2.
  destruct (random_openings_run
    (Z.to_nat (Z.min 5 (width self2 * height self2 * depth self2 / 20)))
    self2 (cs_rng st) Hf2 Hp2) as (self' & rng' & Hr & Hf').
  exists self', rng'.
  assert (generate_maze self rng = Ok (self', rng')) as Hg.
  { unfold generate_maze. rewrite Hst. simpl. rewrite H1. simpl.
    rewrite H2. simpl. done. }
  apply random_openings_only_opens in Hr as [Ho3 Hfr3].
  split_and!; [done|done|by eapply generate_maze_only_opens| |].
  - destruct Hfr3 as (_&_&_&->&_). eapply only_opens_Open; [done|].
    destruct Hfr2 as (_&_&_&->&_). eapply only_opens_Open;
      [by eapply grid_assign_only_opens|].
    destruct Hfr1 as (_&_&_&->&_). by eapply grid_assign_Open.
  - destruct Hfr3 as (_&_&_&_&->). eapply only_opens_Open; [done|].
    destruct Hfr2 as (_&_&_&_&->). by eapply grid_assign_Open.
Qed.

(** ** Every lattice cell is visited *)

Lemma carve_visits_lattice self st :
  carve_inv self st → cs_stack st = [] →
  ∀ c, lattice_reach self c → c ∈ cs_visited st.
Proof.
  intros Hi Hnil c Hc. induction Hc as [|c0 d _ IH Hd Hb];
    [apply (ci_start _ _ Hi)|].
  destruct (ci_closed _ _ Hi c0 IH) as [Hs|Hall]; [|by apply Hall].
  rewrite Hnil in Hs. by apply elem_of_nil in Hs.
Qed.

(** ** Trees grow by leaves *)

Section Tree.
Context {A : Type} `{EqDecision A} (R : A → A → Prop).
Hypothesis R_sym : ∀ a b, R a b → R b a.
Implicit Types (P : A → Prop) (p q : list A) (a b u v : A).

Lemma linked_cons_cons a b p : linked R (a :: b :: p) ↔ R a b ∧ linked R (b :: p).
Proof. done. Qed.

Lemma linked_snoc p x :
  linked R (p ++ [x]) ↔
  linked R p ∧ match last p with Some y => R y x | None => True end.
Proof.
  induction p as [|a [|b p] IH]; [simpl; tauto..|].
  change ((a :: b :: p) ++ [x]) with (a :: (b :: p) ++ [x]).
  change ((b :: p) ++ [x]) with (b :: p ++ [x]) in *.
  rewrite !linked_cons_cons, IH, last_cons_cons. tauto.
Qed.

Lemma linked_reverse p : linked R p → linked R (reverse p).
Proof.
  induction p as [|a p IH]; [done|]. intros [Ha Hp].
  rewrite reverse_cons, linked_snoc, last_reverse. split; [by apply IH|].
  destruct p; simpl; [done|by apply R_sym].
Qed.

Lemma path_mono P Q a b p :
  (∀ c, P c → Q c) → path R P a b p → path R Q a b p.
Proof.
  intros HPQ (?&?&HF&?). repeat split; try done.
  eapply Forall_impl; [done|]. done.
Qed.

Lemma simple_path_mono P Q a b p :
  (∀ c, P c → Q c) → simple_path R P a b p → simple_path R Q a b p.
Proof. intros ? [??]. split; [by eapply path_mono|done]. Qed.

Lemma simple_path_reverse P a b p :
  simple_path R P a b p → simple_path R P b a (reverse p).
Proof.
  intros [(Hh&Hl&HF&Hk) Hn]. split; [|by rewrite reverse_Permutation].
  repeat split.
  - by rewrite head_reverse.
  - by rewrite last_reverse.
  - by apply Forall_reverse.
  - by apply linked_reverse.
Qed.

Lemma simple_path_singleton P a : P a → simple_path R P a a [a].
Proof.
  intros Ha. split; [|apply NoDup_singleton].
  repeat split; simpl; auto.
Qed.

(** A simple path that ends where it starts is a single vertex. *)
Lemma simple_path_loop P a p : simple_path R P a a p → p = [a].
Proof.
  intros [(Hh&Hl&_&_) Hn]. destruct p as [|a' p]; [done|].
  injection Hh as ->. destruct p as [|b p]; [done|].
  rewrite last_cons_cons in Hl. apply last_Some_elem_of in Hl.
  apply NoDup_cons in Hn as [Hn _]. done.
Qed.

Lemma tree_ext P Q : (∀ c, P c ↔ Q c) → is_tree R P → is_tree R Q.
Proof.
  intros HPQ [Hc Hu]. split.
  - intros a b Ha%HPQ Hb%HPQ. destruct (Hc a b Ha Hb) as [p Hp].
    exists p. eapply simple_path_mono; [|done]. intros c. apply HPQ.
  - intros a b p q Hp Hq. apply (Hu a b);
      (eapply simple_path_mono; [|done]; intros c; apply HPQ).
Qed.

Lemma tree_singleton a : is_tree R (λ c, c = a).
Proof.
  split.
  - intros ? ? -> ->. exists [a]. by apply simple_path_singleton.
  - intros b c p q Hp Hq.
    assert (b = a ∧ c = a) as [-> ->].
    { destruct Hp as [(Hh&Hl&HF&_) _]. rewrite Forall_forall in HF.
      split; apply HF;
        [by eapply head_Some_elem_of|by eapply last_Some_elem_of]. }
    apply simple_path_loop in Hp, Hq. congruence.
Qed.

Section Leaf.
Context (P : A → Prop) (u v : A).
Hypothesis Hu : P u.
Hypothesis Hv : ¬ P v.
Hypothesis Huv : R u v.
Hypothesis Hleaf : ∀ w, P w → R w v → w = u.

Let P' : A → Prop := λ c, P c ∨ c = v.

(** A simple path that neither starts nor ends at the leaf avoids it. *)
Lemma leaf_avoided p a b :
  simple_path R P' a b p → a ≠ v → b ≠ v → v ∉ p.
Proof.
  revert a. induction p as [|a1 p IH]; intros a [(Hh&Hl&HF&Hk) Hn] Ha Hb.
  { apply not_elem_of_nil. }
  injection Hh as ->.
  destruct p as [|a2 p].
  { apply not_elem_of_cons. split; [congruence|apply not_elem_of_nil]. }
  apply not_elem_of_cons. split; [congruence|].
  rewrite last_cons_cons in Hl. destruct Hk as [Ha2 Hk].
  apply NoDup_cons in Hn as [Hna Hn]. apply Forall_cons in HF as [HPa HF].
  destruct (decide (a2 = v)) as [->|Hne]; [|].
  2:{ eapply (IH a2); [|done..]. by split; [split_and!|]. }
  destruct p as [|a3 p]; [by simplify_eq/=|].
  destruct Hk as [Ha3 _].
  apply NoDup_cons in Hn as [Hnv _].
  apply Forall_cons in HF as [_ [HP3 _]%Forall_cons].
  assert (a = u) as ->.
  { apply Hleaf; [|done]. by destruct HPa. }
  assert (a3 = u) as ->.
  { apply Hleaf; [|by apply R_sym].
    destruct HP3 as [?| ->]; [done|]. exfalso. apply Hnv. by left. }
  exfalso. apply Hna. right. by left.
Qed.

Lemma leaf_avoided_path p a b :
  simple_path R P' a b p → v ∉ p → simple_path R P a b p.
Proof.
  intros [(Hh&Hl&HF&Hk) Hn] Hnv. repeat split; try done.
  rewrite Forall_forall in HF |- *. intros c Hc.
  destruct (HF c Hc) as [?| ->]; done.
Qed.

(** A simple path from the leaf is the leaf alone, or the leaf followed
    by a simple path from its only neighbour. *)
Lemma leaf_first p b :
  simple_path R P' v b p →
  (b = v ∧ p = [v]) ∨
  (b ≠ v ∧ ∃ p', p = v :: p' ∧ simple_path R P u b p').
Proof.
  intros [(Hh&Hl&HF&Hk) Hn].
  destruct p as [|a1 p]; [done|]. injection Hh as ->.
  destruct p as [|a2 p]; [left; by simplify_eq/=|]. right.
  rewrite last_cons_cons in Hl. destruct Hk as [Ha2 Hk].
  apply NoDup_cons in Hn as [Hnv Hn]. apply Forall_cons in HF as [_ HF].
  assert (a2 ≠ v) as Hne by (intros ->; apply Hnv; by left).
  assert (a2 = u) as ->.
  { apply Hleaf; [|by apply R_sym].
    apply Forall_cons in HF as [[|]]; done. }
  split; [intros ->; by apply last_Some_elem_of in Hl|].
  eexists; split; [done|]. apply leaf_avoided_path; [|done].
  by split; [split_and!|].
Qed.

Lemma leaf_unique_from p q b :
  (∀ a b p q, simple_path R P a b p → simple_path R P a b q → p = q) →
  simple_path R P' v b p → simple_path R P' v b q → p = q.
Proof.
  intros Huniq Hp Hq.
  destruct (leaf_first _ _ Hp) as [[? ->]|[? (p' & -> & Hp')]],
           (leaf_first _ _ Hq) as [[? ->]|[? (q' & -> & Hq')]];
    try done.
  f_equal. by eapply Huniq.
Qed.

Lemma tree_add_leaf : is_tree R P → is_tree R P'.
Proof.
  intros [Hconn Huniq].
  assert (∀ b, P b → ∃ p, simple_path R P' v b p) as Hfrom.
  { intros b Hb. destruct (Hconn u b Hu Hb) as [p [(Hh&Hl&HF&Hk) Hn]].
    exists (v :: p). destruct p as [|a1 p]; [done|]. injection Hh as ->.
    split; [repeat split|].
    - by rewrite last_cons_cons.
    - apply Forall_cons. split; [by right|].
      eapply Forall_impl; [done|]. by left.
    - by apply R_sym.
    - apply Hk.
    - apply Hk.
    - apply NoDup_cons. split; [|done]. intros Hin.
      rewrite Forall_forall in HF. by apply Hv, HF. }
  split.
  - intros a b [Ha| ->] [Hb| ->].
    + destruct (Hconn a b Ha Hb) as [p Hp]. exists p.
      eapply simple_path_mono; [|done]. by left.
    + destruct (Hfrom a Ha) as [p Hp]. exists (reverse p).
      by apply simple_path_reverse.
    + by apply Hfrom.
    + exists [v]. apply simple_path_singleton. by right.
  - intros a b p q Hp Hq.
    destruct (decide (a = v)) as [->|Ha]; [by eapply leaf_unique_from|].
    destruct (decide (b = v)) as [->|Hb].
    + apply simple_path_reverse in Hp, Hq.
      pose proof (leaf_unique_from _ _ _ Huniq Hp Hq) as Heq.
      apply (f_equal reverse) in Heq. by rewrite !reverse_involutive in Heq.
    + apply (Huniq a b); apply leaf_avoided_path;
        eauto using leaf_avoided.
Qed.
End Leaf.
End Tree.

(** ** The carved cells form a tree *)

(** Parity goals need [lia] to know division by two. *)
Ltac Zify.zify_post_hook ::= Z.to_euclidean_division_equations.

Lemma adjacent_sym a b : adjacent a b → adjacent b a.
Proof. destruct a as [[??]?], b as [[??]?]. unfold adjacent. lia. Qed.

(** Case analysis on a direction. *)
Ltac directions d H :=
  apply elem_of_directions in H;
  destruct H as [->|[->|[->|[->|[->| ->]]]]].

Lemma adjacent_hop_1 c d : d ∈ directions → adjacent c (hop 1 c d).
Proof.
  destruct c as [[z y] x]. intros Hd. directions d Hd; unfold adjacent, hop; lia.
Qed.

Lemma adjacent_hop_1_2 c d : d ∈ directions → adjacent (hop 1 c d) (hop 2 c d).
Proof.
  destruct c as [[z y] x]. intros Hd. directions d Hd; unfold adjacent, hop; lia.
Qed.

Lemma hop_2_lattice c d : d ∈ directions → on_lattice c → on_lattice (hop 2 c d).
Proof.
  destruct c as [[z y] x]. intros Hd. directions d Hd; unfold on_lattice, hop; lia.
Qed.

Lemma hop_1_2_ne c d : d ∈ directions → hop 2 c d ≠ hop 1 c d.
Proof.
  destruct c as [[z y] x]. intros Hd.
  directions d Hd; unfold hop; intros [=]; lia.
Qed.

Lemma wall_not_lattice c d :
  d ∈ directions → on_lattice c → ¬ on_lattice (hop 1 c d).
Proof.
  destruct c as [[z y] x]. intros Hd. directions d Hd; unfold on_lattice, hop; lia.
Qed.

Lemma lattice_not_adjacent a b : on_lattice a → on_lattice b → ¬ adjacent a b.
Proof.
  destruct a as [[??]?], b as [[??]?]. unfold on_lattice, adjacent. lia.
Qed.

Lemma directions_cases dz dy dx :
  (dz, dy, dx) ∈ directions →
  (dz = 0 ∧ dy = -1 ∧ dx = 0) ∨ (dz = 0 ∧ dy = 1 ∧ dx = 0) ∨
  (dz = 0 ∧ dy = 0 ∧ dx = -1) ∨ (dz = 0 ∧ dy = 0 ∧ dx = 1) ∨
  (dz = -1 ∧ dy = 0 ∧ dx = 0) ∨ (dz = 1 ∧ dy = 0 ∧ dx = 0).
Proof. rewrite elem_of_directions. intros H. destruct_or!; simplify_eq; lia. Qed.

Lemma lattice_adjacent_wall a c d :
  d ∈ directions → on_lattice c → on_lattice a →
  adjacent a (hop 1 c d) → a = c ∨ a = hop 2 c d.
Proof.
  destruct a as [[az ay] ax], c as [[z y] x], d as [[dz dy] dx].
  intros Hd%directions_cases. unfold on_lattice, adjacent, hop. intros ? ? Hadj.
  assert ((az = z ∧ ay = y ∧ ax = x) ∨
          (az = z + dz * 2 ∧ ay = y + dy * 2 ∧ ax = x + dx * 2)) as Hc.
  { destruct_or! Hd; destruct_and!; subst; lia. }
  destruct Hc as [(->&->&->)|(->&->&->)]; [by left|by right].
Qed.

Lemma wall_ends c d a d' :
  d ∈ directions → d' ∈ directions → on_lattice c → on_lattice a →
  hop 1 c d = hop 1 a d' →
  (a = c ∧ hop 2 a d' = hop 2 c d) ∨ (a = hop 2 c d ∧ hop 2 a d' = c).
Proof.
  destruct a as [[az ay] ax], c as [[z y] x], d as [[dz dy] dx],
    d' as [[dz' dy'] dx'].
  intros Hd%directions_cases Hd'%directions_cases.
  unfold on_lattice, hop. intros ? ? [= Hz Hy Hx].
  assert ((az = z ∧ ay = y ∧ ax = x ∧ dz' = dz ∧ dy' = dy ∧ dx' = dx) ∨
          (az = z + dz * 2 ∧ ay = y + dy * 2 ∧ ax = x + dx * 2 ∧
           dz' = - dz ∧ dy' = - dy ∧ dx' = - dx)) as Hc.
  { destruct_or! Hd; destruct_or! Hd'; destruct_and!; subst; lia. }
  destruct Hc as [(->&->&->&->&->&->)|(->&->&->&->&->&->)]; [by left|right].
  split; [done|]. f_equal; [f_equal|]; lia.
Qed.

Lemma walls_not_adjacent a c d d' :
  d ∈ directions → d' ∈ directions → on_lattice c → on_lattice a →
  ¬ adjacent (hop 1 a d') (hop 1 c d).
Proof.
  destruct a as [[az ay] ax], c as [[z y] x], d as [[dz dy] dx],
    d' as [[dz' dy'] dx'].
  intros Hd%directions_cases Hd'%directions_cases.
  unfold on_lattice, adjacent, hop. intros ? ?.
  destruct_or! Hd; destruct_or! Hd'; destruct_and!; subst; lia.
Qed.

Lemma grid_assign_Open_iff self c self' :
  grid_assign self c 0 = Ok self' → ∀ x, Open self' x ↔ Open self x ∨ x = c.
Proof.
  intros [H _]%grid_assign_inv x. unfold Open.
  rewrite (getitem_setitem _ _ _ _ x H). case_decide.
  - subst. split; [by right|done].
  - split; [by left|]. intros [?|?]; [done|congruence].
Qed.

Lemma carve_trans_tree self0 st st' :
  carve_inv self0 st → tree_inv st → carve_trans st st' → tree_inv st'.
Proof.
  intros Hi [Hlat Hopen Htree] Ht. destruct Ht as
    [self c rest vis rng Hnil | self c rest vis rng n d rng' self1 self2 Hin H1 H2];
    simpl in *; [by split|].
  apply elem_of_neighbors_of in Hin as (Hd & -> & _ & Hnv).
  assert (c ∈ vis) as Hc by (apply (ci_stack _ _ Hi); by left).
  destruct (Hlat c Hc) as [Hcl Hco].
  pose proof (grid_assign_Open_iff _ _ _ H1) as Ho1.
  pose proof (grid_assign_Open_iff _ _ _ H2) as Ho2.
  (* the wall was closed, and only [c] is next to it *)
  assert (¬ Open self (hop 1 c d)) as Hw.
  { intros [Hv|(a & d' & Hd' & Heq & Ha & Ha2)]%Hopen.
    - by eapply wall_not_lattice, Hlat.
    - apply wall_ends in Heq as [[-> Hn]|[-> _]]; try done;
        [by rewrite <- Hn in Hnv|by apply Hlat]. }
  assert (∀ x, Open self x → adjacent x (hop 1 c d) → x = c) as Hw1.
  { intros x [Hv|(a & d' & Hd' & -> & Ha & Ha2)]%Hopen Hadj.
    - apply lattice_adjacent_wall in Hadj as [->| ->]; try done.
      by apply Hlat.
    - exfalso. eapply walls_not_adjacent; [..|done]; try done.
      by apply Hlat. }
  (* the new cell was closed, and only the wall is next to it *)
  assert (on_lattice (hop 2 c d)) as Hnl by (by apply hop_2_lattice).
  assert (¬ Open self1 (hop 2 c d)) as Hn.
  { rewrite Ho1. intros [[Hv|(a & d' & Hd' & Heq & Ha & Ha2)]%Hopen|Heq].
    - done.
    - rewrite Heq in Hnl. eapply wall_not_lattice; [..|done]; [done|].
      by apply Hlat.
    - by eapply hop_1_2_ne. }
  assert (∀ x, Open self1 x → adjacent x (hop 2 c d) → x = hop 1 c d) as Hn1.
  { intros x Hx Hadj. apply Ho1 in Hx as [Hx|]; [exfalso|done].
    apply Hopen in Hx as [Hv|(a & d' & Hd' & -> & Ha & Ha2)].
    - eapply lattice_not_adjacent; [..|done]; [by apply Hlat|done].
    - apply adjacent_sym, lattice_adjacent_wall in Hadj as [Heq|Heq];
        try done; [congruence|congruence|by apply Hlat]. }
  split; simpl.
  - intros x [->|Hx]%elem_of_cons.
    + split; [done|]. apply Ho2. by right.
    + split; [by apply Hlat|]. apply Ho2. left. apply Ho1. left. by apply Hlat.
  - intros x [[Hx| ->]%Ho1| ->]%Ho2.
    + apply Hopen in Hx as [Hv|(a & d' & Hd' & -> & Ha & Ha2)].
      * left. by right.
      * right. exists a, d'. split_and!; try done; by right.
    + right. exists c, d. split_and!; try done; [by right|by left].
    + left. by left.
  - eapply tree_ext; [intros x; symmetry; apply Ho2|].
    apply tree_add_leaf with (u := hop 1 c d);
      [apply adjacent_sym|apply Ho1; by right|done|
       by apply adjacent_hop_1_2|done|].
    eapply tree_ext; [intros x; symmetry; apply Ho1|].
    apply tree_add_leaf with (u := c);
      [apply adjacent_sym|done|done|by apply adjacent_hop_1|done|done].
Qed.

Lemma carve_rtc_tree self0 st st' :
  carve_inv self0 st → tree_inv st → rtc carve_trans st st' → tree_inv st'.
Proof.
  intros Hi Ht Hr. revert Hi Ht.
  induction Hr; eauto using carve_trans_tree, carve_trans_inv.
Qed.

Lemma tree_inv_init self self1 rng :
  GridField self → (∀ c, ¬ Open self c) →
  grid_assign self (start self) 0 = Ok self1 →
  tree_inv (mkCarve self1 [start self] [start self] rng).
Proof.
  intros (_ & Hs & _) Hclosed H1.
  pose proof (grid_assign_Open_iff _ _ _ H1) as Ho.
  split; simpl.
  - intros c ->%list_elem_of_singleton. split; [by rewrite Hs|].
    apply Ho. by right.
  - intros c [?%Hclosed| ->]%Ho; [done|]. left. by left.
  - eapply tree_ext; [|apply (tree_singleton adjacent (start self))].
    intros c. rewrite Ho. split; [by right|]. by intros [?%Hclosed|?].
Qed.

Lemma ones_not_Open w h d self c :
  Maze3D_init w h d = Ok self → ¬ Open self c.
Proof.
  unfold Maze3D_init, ones. case_bool_decide; [|done].
  case_bool_decide; [|done]. simpl.
  intros [= <-]. unfold Open. simpl. destruct c as [[z y] x].
  unfold getitem. case_bool_decide; [|done].
  destruct (replicate _ _ !! Z.to_nat z) as [plane|] eqn:Hp; [|done].
  apply lookup_replicate in Hp as [-> _]. simpl.
  destruct (replicate _ _ !! Z.to_nat y) as [row|] eqn:Hr; [|done].
  apply lookup_replicate in Hr as [-> _]. simpl.
  destruct (replicate _ _ !! Z.to_nat x) as [v|] eqn:Hv; [|done].
  apply lookup_replicate in Hv as [-> _]. done.
Qed.

Lemma Maze3D_init_GridField w h d :
  0 ≤ w → 0 ≤ h → 0 ≤ d → nbytes d h w ≤ max_size →
  ∃ self, Maze3D_init w h d = Ok self ∧ GridField self ∧
          w = width self ∧ h = height self ∧ d = depth self.
Proof.
  intros. unfold Maze3D_init, ones. rewrite !bool_decide_eq_true_2 by done.
  simpl. eexists. split; [done|]. split; [|done].
  split; [apply replicate_shaped|done].
Qed.

(** ** The lattice is carved whole *)

Lemma lattice_reach_x self z y x (n : nat) :
  lattice_reach self (z, y, x) → in_bounds self (z, y, x) = true →
  in_bounds self (z, y, x + 2 * Z.of_nat n) = true →
  lattice_reach self (z, y, x + 2 * Z.of_nat n).
Proof.
  intros Hr H0. induction n as [|n IH]; intros Hn.
  { by replace (x + 2 * Z.of_nat 0) with x by lia. }
  apply in_bounds_spec in H0 as H0', Hn as Hn'.
  replace (z, y, x + 2 * Z.of_nat (S n))
    with (hop 2 (z, y, x + 2 * Z.of_nat n) (0, 0, 1))
    by (unfold hop; f_equal; [f_equal|]; lia).
  apply lattice_hop.
  - apply IH, in_bounds_spec. lia.
  - apply elem_of_directions. tauto.
  - unfold hop. apply in_bounds_spec. lia.
Qed.

Lemma lattice_reach_y self z y x (n : nat) :
  lattice_reach self (z, y, x) → in_bounds self (z, y, x) = true →
  in_bounds self (z, y + 2 * Z.of_nat n, x) = true →
  lattice_reach self (z, y + 2 * Z.of_nat n, x).
Proof.
  intros Hr H0. induction n as [|n IH]; intros Hn.
  { by replace (y + 2 * Z.of_nat 0) with y by lia. }
  apply in_bounds_spec in H0 as H0', Hn as Hn'.
  replace (z, y + 2 * Z.of_nat (S n), x)
    with (hop 2 (z, y + 2 * Z.of_nat n, x) (0, 1, 0))
    by (unfold hop; f_equal; [f_equal|]; lia).
  apply lattice_hop.
  - apply IH, in_bounds_spec. lia.
  - apply elem_of_directions. tauto.
  - unfold hop. apply in_bounds_spec. lia.
Qed.

Lemma lattice_reach_z self z y x (n : nat) :
  lattice_reach self (z, y, x) → in_bounds self (z, y, x) = true →
  in_bounds self (z + 2 * Z.of_nat n, y, x) = true →
  lattice_reach self (z + 2 * Z.of_nat n, y, x).
Proof.
  intros Hr H0. induction n as [|n IH]; intros Hn.
  { by replace (z + 2 * Z.of_nat 0) with z by lia. }
  apply in_bounds_spec in H0 as H0', Hn as Hn'.
  replace (z + 2 * Z.of_nat (S n), y, x)
    with (hop 2 (z + 2 * Z.of_nat n, y, x) (1, 0, 0))
    by (unfold hop; f_equal; [f_equal|]; lia).
  apply lattice_hop.
  - apply IH, in_bounds_spec. lia.
  - apply elem_of_directions. tauto.
  - unfold hop. apply in_bounds_spec. lia.
Qed.

(** Every lattice cell inside the grid is reached from the origin. *)
Lemma lattice_reach_all self c :
  start self = (0, 0, 0) → in_bounds self c = true → on_lattice c →
  lattice_reach self c.
Proof.
  destruct c as [[z y] x]. intros Hs Hb (Hz & Hy & Hx).
  apply in_bounds_spec in Hb as Hb'.
  replace z with (0 + 2 * Z.of_nat (Z.to_nat (z / 2))) in * by lia.
  replace y with (0 + 2 * Z.of_nat (Z.to_nat (y / 2))) in * by lia.
  replace x with (0 + 2 * Z.of_nat (Z.to_nat (x / 2))) in * by lia.
  apply lattice_reach_z; [|apply in_bounds_spec; lia|done].
  apply lattice_reach_y; [|apply in_bounds_spec; lia..].
  apply lattice_reach_x; [|apply in_bounds_spec; lia..].
  rewrite <- Hs. constructor.
Qed.

(** The carving loop from a field without Open cells, with what holds
    when it has ended. *)
Lemma carve_closed_run self rng :
  GridField self → positive self → (∀ c, ¬ Open self c) →
  ∃ st, carve self rng = Ok st ∧ cs_stack st = [] ∧
        carve_inv self st ∧ tree_inv st.
Proof.
  intros Hf Hp Hclosed.
  destruct (carve_run self rng Hf Hp)
    as (self1 & st & H1 & Hst & Hr & Hnil & Hi).
  exists st. split_and!; try done.
  eapply carve_rtc_tree; [|by eapply tree_inv_init|done].
  by eapply carve_inv_init.
Qed.

(** ** The search: steps, levels and chains *)

Lemma adjacent_hop c c' :
  adjacent c c' ↔ ∃ d, d ∈ directions ∧ c' = hop 1 c d.
Proof.
  split.
  - destruct c as [[z y] x], c' as [[z' y'] x']. unfold adjacent. intros H.
    exists (z' - z, y' - y, x' - x). split.
    + apply elem_of_directions.
      assert ((z' - z = 0 ∧ y' - y = -1 ∧ x' - x = 0) ∨
              (z' - z = 0 ∧ y' - y = 1 ∧ x' - x = 0) ∨
              (z' - z = 0 ∧ y' - y = 0 ∧ x' - x = -1) ∨
              (z' - z = 0 ∧ y' - y = 0 ∧ x' - x = 1) ∨
              (z' - z = -1 ∧ y' - y = 0 ∧ x' - x = 0) ∨
              (z' - z = 1 ∧ y' - y = 0 ∧ x' - x = 0)) as Hc by lia.
      destruct_or! Hc; destruct_and!; repeat match goal with
        H : _ - _ = _ |- _ => rewrite H; clear H end; tauto.
    + unfold hop. f_equal; [f_equal|]; lia.
  - intros (d & Hd & ->). by apply adjacent_hop_1.
Qed.

Lemma level_unique self n m c : level self n c → level self m c → n = m.
Proof.
  intros [Hn Hn'] [Hm Hm'].
  destruct (Nat.lt_trichotomy n m) as [?|[?|?]]; [|done|].
  - by destruct (Hm' n).
  - by destruct (Hn' m).
Qed.

Lemma level_start self : level self 0 (start self).
Proof. split; [constructor|lia]. Qed.

Lemma chain_insert self parent n c c' v :
  parent !! c' = None → chain self parent n c →
  chain self (<[c' := v]> parent) n c.
Proof.
  intros Hnone. induction 1 as [Hr|n c0 c1 Hl Ha He _ IH].
  - constructor. rewrite lookup_insert_ne; [done|congruence].
  - econstructor; try done. rewrite lookup_insert_ne; [done|congruence].
Qed.

Lemma walk_snoc self a b c p :
  walk self a b p → adjacent b c → enterable self c →
  walk self a c (p ++ [c]).
Proof.
  intros (Hh & Hl & Hk & HF) Hadj He.
  destruct p as [|a' p]; [done|]. injection Hh as ->.
  split_and!.
  - done.
  - apply last_snoc.
  - apply linked_snoc. by rewrite Hl.
  - simpl in *. apply Forall_app. split; [done|]. by apply Forall_singleton.
Qed.

Lemma walk_singleton self a : walk self a a [a].
Proof. by split_and!; simpl. Qed.

Lemma reconstruct_None fuel parent path :
  reconstruct fuel parent None path = Ok (reverse path).
Proof. by destruct fuel. Qed.

(** A chain of links is a walk, and [reconstruct] returns it. *)
Lemma chain_walk self parent n c :
  chain self parent n c →
  ∃ p, walk self (start self) c p ∧ length p = S n ∧
       ∀ fuel acc, (n < fuel)%nat →
         reconstruct fuel parent (Some c) acc = Ok (reverse (acc ++ reverse p)).
Proof.
  induction 1 as [Hr|n c c' Hl Ha He _ (p & Hw & Hlen & Hrec)].
  - exists [start self]. refine (conj _ (conj _ _)); [apply walk_singleton|done|].
    intros [|fuel] acc ?; [lia|]. simpl. by rewrite Hr, reconstruct_None.
  - exists (p ++ [c']). refine (conj _ (conj _ _)).
    + by eapply walk_snoc.
    + rewrite length_app. simpl. lia.
    + intros [|fuel] acc ?; [lia|]. simpl. rewrite Hl.
      rewrite Hrec by lia. by rewrite reverse_snoc, <- app_assoc.
Qed.

Lemma walk_reach self c p :
  walk self (start self) c p → reach self (pred (length p)) c.
Proof.
  revert c. induction p as [|c' p IH] using rev_ind; intros c (Hh & Hl & Hk & HF).
  { done. }
  rewrite last_snoc in Hl. injection Hl as ->. rewrite length_app. simpl.
  destruct p as [|a p].
  { injection Hh as ->. constructor. }
  replace (pred (length (a :: p) + 1)) with (S (pred (length (a :: p))))
    by (simpl; lia).
  rewrite <- app_comm_cons in Hh, HF. simpl in HF, Hh.
  apply Forall_app in HF as [HF Hc]. rewrite Forall_singleton in Hc.
  apply linked_snoc in Hk as [Hk Hadj].
  destruct (last (a :: p)) as [b|] eqn:Hb; [|by apply last_None in Hb].
  apply (reach_step _ _ b); [|done..].
  apply IH. by refine (conj _ (conj _ (conj _ _))).
Qed.

(** ** One direction *)

#[global] Arguments in_bounds : simpl never.

Lemma hop_1_eq z y x dz dy dx :
  hop 1 (z, y, x) (dz, dy, dx) = (z + dz, y + dy, x + dx).
Proof. unfold hop. f_equal; [f_equal|]; lia. Qed.

Lemma visit_spec self c st d st' :
  visit self c st d = Ok st' →
  (enterable self (hop 1 c d) ∧ (hop 1 c d ∉ visited st) ∧
   st' = {| queue := queue st ++ [hop 1 c d];
            visited := {[hop 1 c d]} ∪ visited st;
            parent := <[hop 1 c d := Some c]> (parent st) |}) ∨
  ((enterable self (hop 1 c d) → hop 1 c d ∈ visited st) ∧ st' = st).
Proof.
  destruct c as [[z y] x], d as [[dz dy] dx]. rewrite hop_1_eq.
  unfold visit, enterable, Open, grid_read.
  destruct (in_bounds self _) eqn:Hb.
  - rewrite bind_Ok. intros (v & Hv%indexed_Ok & H). rewrite Hv.
    destruct (bool_decide (v = 0)) eqn:Hv0; simpl in H.
    + apply bool_decide_eq_true in Hv0 as ->.
      destruct (bool_decide (_ ∈ visited st)) eqn:Hin; simpl in H;
        injection H as <-.
      * apply bool_decide_eq_true in Hin. right. done.
      * apply bool_decide_eq_false in Hin. left. done.
    + apply bool_decide_eq_false in Hv0. injection H as <-. right.
      split; [|done]. intros [_ [=]]. done.
  - intros [= <-]. right. split; [|done]. by intros [[=] _].
Qed.

Lemma visit_ok self c st d : GridField self → ∃ st', visit self c st d = Ok st'.
Proof.
  intros Hf. destruct c as [[z y] x], d as [[dz dy] dx]. unfold visit, grid_read.
  destruct (in_bounds self _) eqn:Hb; [|by eauto].
  apply (GridField_getitem _ _ Hf) in Hb as [v ->]. simpl.
  destruct (_ && _); eauto.
Qed.

Lemma visit_all_ok self c ds st :
  GridField self → ∃ st', visit_all self c ds st = Ok st'.
Proof.
  intros Hf. revert st. induction ds as [|d ds IH]; intros st; simpl; [by eauto|].
  destruct (visit_ok self c st d Hf) as [st1 ->]. simpl. apply IH.
Qed.

(** ** The invariant of the search *)

Lemma bfs_core_init self :
  bfs_core self 0 [start self] []
    {| queue := [start self]; visited := {[start self]};
       parent := {[start self := None]} |}.
Proof.
  split; simpl.
  - done.
  - intros c ->%list_elem_of_singleton. apply level_start.
  - intros c []%elem_of_nil.
  - apply NoDup_singleton.
  - by rewrite dom_singleton_L.
  - intros c ->%list_elem_of_singleton. by apply elem_of_singleton.
  - intros c ->%elem_of_singleton. exists 0%nat. split; [apply level_start|].
    constructor. apply lookup_singleton_eq.
  - intros n c Hr Hn. assert (n = 0%nat) as -> by lia.
    inversion Hr. by apply elem_of_singleton.
  - intros c ->%elem_of_singleton. by left.
Qed.

Lemma bfs_inv_init self :
  bfs_inv self 0 [start self] []
    {| queue := [start self]; visited := {[start self]};
       parent := {[start self := None]} |}.
Proof.
  split; cbn [queue visited parent].
  - apply bfs_core_init.
  - intros c ->%elem_of_singleton Hn. destruct Hn. by left.
  - by rewrite size_singleton.
  - done.
Qed.

Lemma bfs_mid_subset self k c ds ds' front back st :
  (∀ d, d ∈ ds' → d ∈ ds) →
  bfs_mid self k c ds front back st → bfs_mid self k c ds' front back st.
Proof. intros Hsub [????]. split; auto. Qed.

Lemma bfs_dequeue self k c front back st :
  bfs_inv self k (c :: front) back st →
  bfs_mid self k c [] front back
    {| queue := front ++ back; visited := visited st; parent := parent st |}.
Proof.
  intros [[Hq Hfr Hbk Hnd Hdom Hqv Hvis Hcomp Hbnd] Hcl Hsz _].
  rewrite Hq in Hnd, Hqv, Hsz, Hcl. simpl in Hnd, Hsz.
  apply NoDup_cons in Hnd as [Hc Hnd].
  split; [split|..]; simpl; try done.
  - intros x Hx. apply Hfr. by right.
  - intros x Hx. apply Hqv. by right.
  - split_and!; [apply Hqv; by left|done|apply Hfr; by left].
  - intros x Hx Hnq Hne. apply Hcl; [done|].
    intros [?|?]%elem_of_cons; done.
  - intros d []%elem_of_nil.
  - lia.
Qed.

Lemma bfs_finish self k c front back st :
  bfs_mid self k c directions front back st → bfs_inv self k front back st.
Proof.
  intros [Hcore (Hcv & Hcq & Hcl) Hclosed Hdone Hsz].
  split; try done; [|lia].
  intros x Hx Hnq. destruct (decide (x = c)) as [->|Hne]; [|by apply Hclosed].
  intros x' (d & Hd & ->)%adjacent_hop He. by apply Hdone.
Qed.

Lemma bfs_normalise self k back st :
  bfs_inv self k [] back st → queue st ≠ [] → bfs_inv self (S k) back [] st.
Proof.
  intros [[Hq Hfr Hbk Hnd Hdom Hqv Hvis Hcomp Hbnd] Hcl Hsz Hsz'] Hne.
  simpl in Hq. split; [split|..]; try done.
  - by rewrite app_nil_r.
  - intros c []%elem_of_nil.
  - intros n c Hr Hn. destruct (decide (n ≤ k)%nat) as [|Hgt]; [by eauto|].
    assert (n = S k) as -> by lia.
    inversion Hr as [|n' c0 c' Hr0 Hadj He]; subst.
    assert (c0 ∈ visited st) as Hc0 by eauto.
    apply (Hcl c0); [done| |done..].
    intros Hin. apply Hbk in Hin as [_ Hmin].
    apply (Hmin k); [lia|done].
  - by apply Hsz'.
  - intros ->. by rewrite Hq in Hne.
Qed.

Lemma visit_mid self k c ds front back st d st' :
  bfs_mid self k c ds front back st →
  visit self c st d = Ok st' → d ∈ directions →
  ∃ back', bfs_mid self k c (d :: ds) front back' st'.
Proof.
  intros [[Hq Hfr Hbk Hnd Hdom Hqv Hvis Hcomp Hbnd] (Hcv & Hcq & Hcl)
            Hclosed Hdone Hsz] Hv Hd.
  apply visit_spec in Hv as [(He & Hnv & ->)|[Hin ->]].
  2:{ exists back. split; try done.
      intros d' [->|?]%elem_of_cons; eauto. }
  pose proof (adjacent_hop_1 c d Hd) as Hadj.
  remember (hop 1 c d) as n eqn:Hn.
  assert (level self (S k) n) as Hln.
  { split.
    - eapply reach_step; [apply Hcl|done|done].
    - intros m Hm Hr. apply Hnv. eapply Hcomp; [done|lia]. }
  assert (parent st !! n = None) as Hpn.
  { apply not_elem_of_dom. by rewrite <- Hdom. }
  exists (back ++ [n]). split; [split|..]; cbn [queue visited parent].
  - by rewrite Hq, app_assoc.
  - done.
  - intros x [?| ->%list_elem_of_singleton]%elem_of_app; eauto.
  - apply NoDup_app. split_and!; [done| |apply NoDup_singleton].
    intros x Hx ->%list_elem_of_singleton. by apply Hnv, Hqv.
  - rewrite dom_insert_L. by rewrite Hdom.
  - intros x [?%Hqv| ->%list_elem_of_singleton]%elem_of_app; set_solver.
  - intros x [->%elem_of_singleton|Hx]%elem_of_union.
    + exists (S k). split; [done|].
      destruct (Hvis c Hcv) as (m & Hlm & Hch).
      rewrite (level_unique _ _ _ _ Hcl Hlm).
      eapply chain_link; [apply lookup_insert_eq|done|done|].
      by apply chain_insert.
    + destruct (Hvis x Hx) as (m & Hlm & Hch). exists m.
      split; [done|]. by apply chain_insert.
  - intros m x Hr Hm. apply elem_of_union. right. eauto.
  - intros x [->%elem_of_singleton|Hx]%elem_of_union; [right; apply He|eauto].
  - split_and!; [set_solver| |done].
    intros [?| ->%list_elem_of_singleton]%elem_of_app; done.
  - intros x [->%elem_of_singleton|Hx]%elem_of_union Hnq Hne.
    { destruct Hnq. apply elem_of_app. right. by left. }
    intros x' Ha Hx'. apply elem_of_union. right.
    apply (Hclosed x); try done.
    intros Hxq. apply Hnq, elem_of_app. by left.
  - intros d' [->|Hd']%elem_of_cons Hed; [set_solver|].
    apply elem_of_union. right. by apply Hdone.
  - rewrite length_app, size_union, size_singleton by set_solver. simpl. lia.
Qed.

Lemma visit_all_mid self k c ds' ds front back st st' :
  bfs_mid self k c ds front back st →
  visit_all self c ds' st = Ok st' → (∀ d, d ∈ ds' → d ∈ directions) →
  ∃ back', bfs_mid self k c (ds' ++ ds) front back' st'.
Proof.
  revert ds back st. induction ds' as [|d ds' IH]; intros ds back st Hm; simpl.
  { intros [= <-] _. eauto. }
  rewrite bind_Ok. intros (st1 & H1 & Hrest) Hds.
  destruct (visit_mid _ _ _ _ _ _ _ _ _ Hm H1) as [back1 Hm1];
    [apply Hds; by left|].
  destruct (IH _ _ _ Hm1 Hrest) as [back2 Hm2];
    [intros d' Hd'; apply Hds; by right|].
  exists back2. eapply bfs_mid_subset; [|done].
  intros d' [->|[?|?]%elem_of_app]%elem_of_cons; apply elem_of_app;
    [right; by left|by left|right; by right].
Qed.

(** ** The loop *)

Lemma bfs_inv_head self k front back st c q :
  bfs_inv self k front back st → queue st = c :: q →
  ∃ k' front' back', bfs_inv self k' (c :: front') back' st ∧
                     q = front' ++ back'.
Proof.
  intros Hi Hq. destruct front as [|c' front].
  - apply bfs_normalise in Hi; [|by rewrite Hq].
    pose proof (bc_queue _ _ _ _ _ (bi_core _ _ _ _ _ Hi)) as Hq'.
    rewrite Hq, app_nil_r in Hq'. subst back.
    exists (S k), q, []. by rewrite app_nil_r.
  - pose proof (bc_queue _ _ _ _ _ (bi_core _ _ _ _ _ Hi)) as Hq'.
    rewrite Hq in Hq'. injection Hq' as -> ->. eauto.
Qed.

(** When [end] leaves the queue, the links lead back to [start] along a
    walk of least length, and [reconstruct] has fuel for it. *)
Lemma bfs_found self k front back st :
  bfs_inv self k (end_ self :: front) back st →
  ∃ p n, reconstruct (size (parent st)) (parent st) (Some (end_ self)) []
           = Ok p ∧
         level self n (end_ self) ∧
         walk self (start self) (end_ self) p ∧ length p = S n.
Proof.
  intros [[Hq Hfr Hbk Hnd Hdom Hqv Hvis Hcomp Hbnd] Hcl Hsz _].
  assert (end_ self ∈ visited st) as He.
  { apply Hqv. rewrite Hq. by left. }
  destruct (Hvis _ He) as (n & Hl & Hch).
  assert (n = k) as ->.
  { eapply level_unique; [done|]. apply Hfr. by left. }
  destruct (chain_walk _ _ _ _ Hch) as (p & Hw & Hlen & Hrec).
  exists p, k. split_and!; try done.
  rewrite Hrec; [by rewrite app_nil_l, reverse_involutive|].
  rewrite <- size_dom, <- Hdom. rewrite Hq in Hsz. simpl in Hsz. lia.
Qed.

Lemma bfs_iteration self k c front back st st' :
  bfs_inv self k (c :: front) back st →
  visit_all self c directions
    {| queue := front ++ back; visited := visited st; parent := parent st |}
    = Ok st' →
  ∃ back', bfs_inv self k front back' st'.
Proof.
  intros Hm%bfs_dequeue Hv.
  destruct (visit_all_mid _ _ _ _ _ _ _ _ _ Hm Hv) as [back' Hm']; [done|].
  exists back'. apply (bfs_finish _ _ c).
  eapply bfs_mid_subset; [|done]. intros d Hd. apply elem_of_app. by left.
Qed.

Lemma bfs_loop_sound self fuel st k front back p self' :
  bfs_inv self k front back st →
  bfs_loop fuel self st = Ok (p, self') →
  self' = self ∧
  (p = [] ∨
   ∃ n, level self n (end_ self) ∧
        walk self (start self) (end_ self) p ∧ length p = S n).
Proof.
  revert st k front back.
  induction fuel as [|fuel IH]; intros st k front back Hi; [done|].
  cbn [bfs_loop]. destruct (queue st) as [|c q] eqn:Hq.
  { intros [= <- <-]. by eauto. }
  destruct (bfs_inv_head _ _ _ _ _ _ _ Hi Hq) as (k' & front' & back' & Hi' & ->).
  case_bool_decide as Hend.
  - subst c. destruct (bfs_found _ _ _ _ _ Hi') as (p' & n & -> & Hl & Hw & Hlen).
    simpl. intros [= <- <-]. by eauto 10.
  - rewrite bind_Ok. intros (st' & Hv & Hloop).
    destruct (bfs_iteration _ _ _ _ _ _ _ Hi' Hv) as [back'' Hi''].
    by eapply IH.
Qed.

Lemma visit_measure self c st d st' :
  visit self c st d = Ok st' →
  (length (queue st') + size (visited st)
   = length (queue st) + size (visited st'))%nat.
Proof.
  intros [(_ & Hnv & ->)|[_ ->]]%visit_spec; [|done]. simpl.
  rewrite length_app, size_union, size_singleton by set_solver. simpl. lia.
Qed.

Lemma visit_all_measure self c ds st st' :
  visit_all self c ds st = Ok st' →
  (length (queue st') + size (visited st)
   = length (queue st) + size (visited st'))%nat.
Proof.
  revert st. induction ds as [|d ds IH]; intros st; simpl.
  { by intros [= <-]. }
  rewrite bind_Ok. intros (st1 & H1%visit_measure & Hr%IH). lia.
Qed.

Lemma size_list_to_set_le (l : list coord) :
  (size (list_to_set l : gset coord) ≤ length l)%nat.
Proof.
  induction l as [|a l IH].
  { by rewrite list_to_set_nil, size_empty. }
  rewrite list_to_set_cons, size_union_alt, size_singleton. simpl.
  pose proof (subseteq_size (list_to_set l ∖ {[a]}) (list_to_set l : gset coord)).
  assert (list_to_set l ∖ {[a]} ⊆ (list_to_set l : gset coord)) by set_solver.
  lia.
Qed.

Lemma bfs_visited_size self k front back st :
  bfs_core self k front back st → (size (visited st) ≤ S (cells self))%nat.
Proof.
  intros Hc. rewrite <- length_all_cells.
  change (S (length (all_cells self))) with (length (start self :: all_cells self)).
  etrans; [|apply size_list_to_set_le]. apply subseteq_size.
  intros c Hc'. apply elem_of_list_to_set.
  destruct (bc_bounds _ _ _ _ _ Hc c Hc') as [->|Hb]; [by left|].
  right. by apply elem_of_all_cells.
Qed.

Lemma bfs_loop_total self fuel st k front back :
  GridField self → bfs_inv self k front back st →
  (S (cells self) + length (queue st) < size (visited st) + fuel)%nat →
  ∃ p, bfs_loop fuel self st = Ok (p, self).
Proof.
  intros Hf. revert st k front back.
  induction fuel as [|fuel IH]; intros st k front back Hi Hm.
  { pose proof (bfs_visited_size _ _ _ _ _ (bi_core _ _ _ _ _ Hi)). lia. }
  cbn [bfs_loop]. destruct (queue st) as [|c q] eqn:Hq; [by eauto|].
  destruct (bfs_inv_head _ _ _ _ _ _ _ Hi Hq) as (k' & front' & back' & Hi' & ->).
  case_bool_decide as Hend.
  - subst c. destruct (bfs_found _ _ _ _ _ Hi') as (p' & n & -> & _).
    simpl. eauto.
  - destruct (visit_all_ok self c directions
      {| queue := front' ++ back'; visited := visited st; parent := parent st |}
      Hf) as [st' Hv].
    rewrite Hv. simpl.
    destruct (bfs_iteration _ _ _ _ _ _ _ Hi' Hv) as [back'' Hi''].
    eapply IH; [done|]. apply visit_all_measure in Hv. simpl in *. lia.
Qed.

(** ** [solve_maze] as a whole *)

Lemma solve_maze_sound self p self' :
  solve_maze self = Ok (p, self') →
  self' = self ∧
  (p = [] ∨
   ∃ n, level self n (end_ self) ∧
        walk self (start self) (end_ self) p ∧ length p = S n).
Proof. apply (bfs_loop_sound _ _ _ 0%nat [start self] []), bfs_inv_init. Qed.

Lemma solve_maze_total self :
  GridField self → ∃ p, solve_maze self = Ok (p, self).
Proof.
  intros Hf. eapply bfs_loop_total; [done|apply bfs_inv_init|].
  cbn [queue visited]. rewrite size_singleton. simpl. lia.
Qed.

(** ** Small fields with two even dimensions have no way through *)

Lemma reach_start_or_enterable self n c :
  reach self n c → c = start self ∨ enterable self c.
Proof. destruct 1; [by left|by right]. Qed.

(** With two even dimensions nothing the carving loop opens is next to
    [end]. *)
Lemma carved_not_next_to_end self st c :
  GridField self → positive self → carve_inv self st → tree_inv st →
  (width self mod 2 = 0 ∧ height self mod 2 = 0) ∨
  (width self mod 2 = 0 ∧ depth self mod 2 = 0) ∨
  (height self mod 2 = 0 ∧ depth self mod 2 = 0) →
  Open (cs_self st) c → ¬ adjacent c (end_ self).
Proof.
  intros (_ & _ & ->) (Hw & Hh & Hd) Hi Ht Heven Ho Hadj.
  apply (ti_open _ Ht) in Ho as [Hv|(a & d & Hdir & -> & Ha & Ha2)].
  - apply (ti_lattice _ Ht) in Hv as [Hl _]. destruct c as [[z y] x].
    unfold on_lattice, adjacent in *. lia.
  - apply (ti_lattice _ Ht) in Ha as Hal. destruct Hal as [Hal _].
    apply (ci_bounds _ _ Hi) in Ha, Ha2.
    destruct a as [[z y] x], d as [[dz dy] dx].
    apply directions_cases in Hdir. unfold hop in *.
    apply in_bounds_spec in Ha, Ha2.
    unfold on_lattice, adjacent in *.
    destruct Hdir as [H|[H|[H|[H|[H|H]]]]]; destruct H as (-> & -> & ->);
      lia.
Qed.

(** On such a field, if it is small enough to get no random opening,
    generation leaves [end] cut off, and the search returns nothing. *)
Lemma two_even_no_way self rng :
  GridField self → positive self → (∀ c, ¬ Open self c) →
  width self * height self * depth self < 20 →
  (width self mod 2 = 0 ∧ height self mod 2 = 0) ∨
  (width self mod 2 = 0 ∧ depth self mod 2 = 0) ∨
  (height self mod 2 = 0 ∧ depth self mod 2 = 0) →
  ∃ self' rng',
    generate_maze self rng = Ok (self', rng') ∧
    solve_maze self' = Ok ([], self').
Proof.
  intros Hf Hp Hclosed Hsmall Heven.
  destruct (carve_closed_run self rng Hf Hp Hclosed)
    as (st & Hst & Hnil & Hi & Ht).
  destruct (generate_maze_run self rng Hf Hp)
    as (self' & rng' & Hg & Hf' & Hfr & _).
  destruct (solve_maze_total self' Hf') as [p Hs].
  exists self', rng'. split; [done|]. rewrite Hs. do 2 f_equal.
  (* what is Open in the end *)
  assert (∀ c, Open self' c →
            Open (cs_self st) c ∨ c = start self ∨ c = end_ self) as Hopen.
  { unfold generate_maze in Hg. rewrite Hst in Hg. simpl in Hg.
    apply bind_Ok in Hg as (self1 & H1 & Hg).
    apply bind_Ok in Hg as (self2 & H2 & Hg).
    pose proof (ci_frame _ _ Hi) as (Hw0 & Hh0 & Hd0 & Hs0 & He0).
    apply grid_assign_inv in H1 as H1'. destruct H1' as [_ (Hw1&Hh1&Hd1&Hs1&He1)].
    apply grid_assign_inv in H2 as H2'. destruct H2' as [_ (Hw2&Hh2&Hd2&Hs2&He2)].
    replace (Z.to_nat _) with 0%nat in Hg.
    2:{ rewrite Hw2, Hh2, Hd2, Hw1, Hh1, Hd1, Hw0, Hh0, Hd0.
        destruct Hp as (?&?&?).
        assert (0 ≤ width self * height self * depth self) by nia.
        rewrite Z.div_small by lia. done. }
    simpl in Hg. injection Hg as <- _.
    intros c [[Hc|Hc]%(grid_assign_Open_iff _ _ _ H1)|Hc]%(grid_assign_Open_iff _ _ _ H2).
    - by left.
    - right. left. by rewrite Hc, Hs0.
    - right. right. by rewrite Hc, He1, He0. }
  apply solve_maze_sound in Hs as Hs'.
  destruct Hs' as [_ [->|(n & [Hr _] & _ & _)]]; [done|]. exfalso.
  destruct Hfr as (Hw' & Hh' & Hd' & Hs0' & He0').
  pose proof Hf as (_ & Hstart & Hend). pose proof Hp as (?&?&?).
  remember (end_ self') as e eqn:He.
  destruct Hr as [|n' c e Hr' Hadj Hent].
  - rewrite Hs0', Hstart, Hend in He0'. injection He0'. lia.
  - rewrite He0' in Hadj.
    assert (Open (cs_self st) c ∨ c = start self ∨ c = end_ self) as Hc.
    { apply reach_start_or_enterable in Hr' as [->|[_ Hc]];
        [right; by left|by apply Hopen]. }
    destruct Hc as [Hc|[->| ->]].
    + exact (carved_not_next_to_end self st c Hf Hp Hi Ht Heven Hc Hadj).
    + rewrite Hstart, Hend in Hadj. unfold adjacent in Hadj. lia.
    + destruct (end_ self) as [[??]?]. unfold adjacent in Hadj. lia.
Qed.

(** ** The generation loop *)

Lemma attempt_body_ok rng :
  ∃ maze path rng', attempt_body rng = Ok (maze, path, rng').
Proof.
  unfold attempt_body.
  destruct (Maze3D_init_GridField 9 9 5) as (m & -> & Hf & Hw & Hh & Hd);
    [lia..|by vm_compute|]. simpl.
  assert (positive m) as Hp by (unfold positive; lia).
  destruct (generate_maze_run m rng Hf Hp) as (m1 & rng1 & -> & Hf1 & _).
  simpl. destruct (solve_maze_total m1 Hf1) as [p ->]. simpl. eauto.
Qed.

(** The body of [main] is the body at 9 x 9 x 5, and [main] the loop at
    that body with ten attempts. *)
Lemma main_unfold rng :
  main rng = attempts (attempt_at 9 9 5) (seqZ 1 max_attempts) rng.
Proof. reflexivity. Qed.

Lemma attempts_spec body range rng :
  (∀ r, ∃ maze path r', body r = Ok (maze, path, r')) →
  ∃ log res rng',
    attempts body range rng = Ok (res, rng') ∧ tried body rng log rng' ∧
    (length log ≤ length range)%nat ∧
    match res with
    | Solved attempt maze path =>
        ∃ failed, log = failed ++ [(maze, path)] ∧ path ≠ [] ∧
                  Forall (λ mp, mp.2 = []) failed ∧
                  range !! length failed = Some attempt
    | Exhausted =>
        length log = length range ∧ Forall (λ mp, mp.2 = []) log
    end.
Proof.
  intros Hbody. revert rng. induction range as [|a range IH]; intros rng.
  { exists [], Exhausted, rng. split_and!; try done. constructor. }
  destruct (Hbody rng) as (maze & path & rng1 & Hb).
  cbn [attempts]. rewrite Hb. simpl. destruct path as [|c path].
  - destruct (IH rng1) as (log & res & rng' & -> & Ht & Hlen & Hres).
    exists ((maze, []) :: log), res, rng'.
    simpl. split_and!; [done|by econstructor|lia|].
    destruct res as [k m p|].
    + destruct Hres as (failed & -> & Hne & Hfail & Hk).
      exists ((maze, []) :: failed). split_and!; try done.
      by constructor.
    + destruct Hres as [-> Hall]. split; [done|]. by constructor.
  - exists [(maze, c :: path)], (Solved a maze (c :: path)), rng1.
    split_and!; [done|econstructor; [done|constructor]|simpl; lia|].
    exists []. split_and!; done.
Qed.

Lemma attempts_budget body n rng :
  (∀ r, ∃ maze path r', body r = Ok (maze, path, r')) →
  ∃ log res rng',
    attempts body (seqZ 1 n) rng = Ok (res, rng') ∧
    tried body rng log rng' ∧
    (length log ≤ Z.to_nat n)%nat ∧
    match res with
    | Solved attempt maze path =>
        ∃ failed, log = failed ++ [(maze, path)] ∧ path ≠ [] ∧
                  Forall (λ mp, mp.2 = []) failed ∧
                  attempt = Z.of_nat (length log)
    | Exhausted =>
        length log = Z.to_nat n ∧ Forall (λ mp, mp.2 = []) log
    end.
Proof.
  intros Hbody.
  destruct (attempts_spec body (seqZ 1 n) rng Hbody)
    as (log & res & rng' & Hm & Ht & Hlen & Hres).
  rewrite length_seqZ in Hlen, Hres.
  exists log, res, rng'. split_and!; try done.
  destruct res as [attempt maze path|]; [|done].
  destruct Hres as (failed & -> & Hne & Hfail & Hk).
  exists failed. split_and!; try done.
  apply lookup_seqZ in Hk as [-> _]. rewrite length_app. simpl. lia.
Qed.

(** What a pass that was tried returned. *)
Lemma tried_elem_of body rng log rng' maze path :
  tried body rng log rng' → (maze, path) ∈ log →
  ∃ r r', body r = Ok (maze, path, r').
Proof.
  induction 1 as [|r m p r1 log r2 Hb _ IH]; [by intros ?%elem_of_nil|].
  intros [[= -> ->]|Hin]%elem_of_cons; eauto.
Qed.

(** The body of the loop on the field of 2 x 2 x 2 cells returns, and
    always with the empty path. *)
Lemma attempt_at_small r :
  ∃ maze r', attempt_at 2 2 2 r = Ok (maze, [], r').
Proof.
  destruct (two_even_no_way small_cube r) as (self' & r' & Hg & Hs).
  - split; [apply (replicate_shaped 2 2 2)|done].
  - unfold positive. simpl. lia.
  - intros c. by apply (ones_not_Open 2 2 2).
  - simpl. lia.
  - left. by vm_compute.
  - exists self', r'. unfold attempt_at.
    apply bind_Ok. exists small_cube. split; [done|].
    apply bind_Ok. exists (self', r'). split; [done|].
    cbn beta iota. by rewrite Hs.
Qed.

(** ** Walks and paths through Open cells *)

Lemma path_walk self a b w :
  GridField self → path adjacent (Open self) a b w → walk self a b w.
Proof.
  intros Hf (Hh & Hl & HF & Hk). refine (conj Hh (conj Hl (conj Hk _))).
  destruct w as [|c w]; [done|]. apply Forall_cons in HF as [_ HF]. simpl.
  eapply Forall_impl; [done|]. intros c' Hc'. split; [|done].
  apply (GridField_getitem _ _ Hf). by rewrite Hc'.
Qed.

Lemma walk_path self a b w :
  Open self a → walk self a b w → path adjacent (Open self) a b w.
Proof.
  intros Ha (Hh & Hl & Hk & HF). refine (conj Hh (conj Hl (conj _ Hk))).
  destruct w as [|c w]; [done|]. injection Hh as ->. simpl in HF.
  apply Forall_cons. split; [done|].
  eapply Forall_impl; [done|]. by intros c' [_ ?].
Qed.

(** ** The example fields *)

Lemma GridField_corridor : GridField corridor.
Proof. split; [split; [done|repeat constructor]|done]. Qed.

Lemma GridField_sealed : GridField sealed.
Proof. split; [split; [done|repeat constructor]|done]. Qed.

Lemma GridField_blocked_start : GridField blocked_start.
Proof. split; [split; [done|repeat constructor]|done]. Qed.

Lemma GridField_blocked_entry : GridField blocked_entry.
Proof. split; [split; [done|repeat constructor]|done]. Qed.

Lemma GridField_cube : GridField cube.
Proof. split; [apply (replicate_shaped 3 3 3)|done]. Qed.

Lemma positive_cube : positive cube.
Proof. unfold positive. simpl. lia. Qed.

Lemma cube_closed c : ¬ Open cube c.
Proof. by apply (ones_not_Open 3 3 3). Qed.

(** In [sealed] no step leaves the start. *)
Lemma sealed_reach n c : reach sealed n c → c = (0, 0, 0).
Proof.
  induction 1 as [|n c c' _ -> Hadj [Hb Ho]]; [done|].
  destruct c' as [[z y] x]. apply in_bounds_spec in Hb.
  unfold sealed in Hb. simpl in Hb, Hadj.
  assert (z = 0 ∧ y = 0 ∧ x = 1) as Hxyz by (clear -Hadj Hb; lia).
  destruct Hxyz as (-> & -> & ->).
  by vm_compute in Ho.
Qed.

Lemma sealed_no_walk w : ¬ walk sealed (start sealed) (end_ sealed) w.
Proof. by intros ?%walk_reach%sealed_reach. Qed.

(** ** The claims *)

(** C1.  When [solve_maze] returns a non-empty path, the path is a
    sequence of unit axial steps from [start] to [end], each into an Open
    cell, and no such sequence is shorter; in particular no path from
    [start] to [end] all of whose cells are Open is shorter.  Its number
    of edges is the breadth-first distance from [start] to [end]. *)
Theorem solve_maze_shortest self p self' :
  GridField self → solve_maze self = Ok (p, self') → p ≠ [] →
  walk self (start self) (end_ self) p ∧
  (∀ w, walk self (start self) (end_ self) w → length p ≤ length w)%nat ∧
  (∀ w, path adjacent (Open self) (start self) (end_ self) w →
        length p ≤ length w)%nat.
Proof.
  intros Hf [_ [->|(n & [_ Hmin] & Hw & Hlen)]]%solve_maze_sound Hne; [done|].
  assert (∀ w, walk self (start self) (end_ self) w → length p ≤ length w)%nat
    as Hshort.
  { intros w Hw'. pose proof (walk_reach _ _ _ Hw') as Hr. rewrite Hlen.
    destruct w as [|a w]; [by destruct Hw'|]. simpl in *.
    destruct (decide (length w < n)%nat) as [Hlt|]; [|lia].
    by destruct (Hmin _ Hlt). }
  split_and!; [done|done|]. intros w Hp. by apply Hshort, path_walk.
Qed.

Lemma solve_maze_shortest_witness :
  walk corridor (start corridor) (end_ corridor) corridor_path ∧
  (∀ w, walk corridor (start corridor) (end_ corridor) w →
        length corridor_path ≤ length w)%nat ∧
  (∀ w, path adjacent (Open corridor) (start corridor) (end_ corridor) w →
        length corridor_path ≤ length w)%nat.
Proof.
  apply (solve_maze_shortest corridor corridor_path corridor).
  - exact GridField_corridor.
  - vm_compute. reflexivity.
  - discriminate.
Defined.

(** C2, as the claim states it, fails: on the field of two cells whose
    start is Blocked, [solve_maze] returns the path from [start] to [end],
    and the first cell of the path is not Open. *)
Lemma solve_maze_path_blocked_start :
  GridField blocked_start ∧
  solve_maze blocked_start = Ok ([(0, 0, 0); (0, 0, 1)], blocked_start) ∧
  ¬ Forall (Open blocked_start) [(0, 0, 0); (0, 0, 1)].
Proof.
  split_and!; [exact GridField_blocked_start|by vm_compute|].
  intros [H _]%Forall_cons. by vm_compute in H.
Qed.

(** C2, amended.  When [solve_maze] returns a non-empty path, the path
    begins with [start] and ends with [end], every consecutive pair
    differs by exactly 1 in exactly one axis, every coordinate after the
    first is an Open cell of the grid, and so is the first when the cell
    at [start] is Open. *)
Theorem solve_maze_path_valid self p self' :
  solve_maze self = Ok (p, self') → p ≠ [] →
  head p = Some (start self) ∧ last p = Some (end_ self) ∧
  linked adjacent p ∧ Forall (Open self) (tail p) ∧
  (Open self (start self) →
   path adjacent (Open self) (start self) (end_ self) p).
Proof.
  intros [_ [->|(n & _ & Hw & _)]]%solve_maze_sound Hne; [done|].
  pose proof Hw as (Hh & Hl & Hk & HF). split_and!; try done.
  - eapply Forall_impl; [done|]. by intros c [_ ?].
  - intros Ho. by apply walk_path.
Qed.

Lemma solve_maze_path_valid_witness :
  head corridor_path = Some (start corridor) ∧
  last corridor_path = Some (end_ corridor) ∧
  linked adjacent corridor_path ∧
  Forall (Open corridor) (tail corridor_path) ∧
  (Open corridor (start corridor) →
   path adjacent (Open corridor) (start corridor) (end_ corridor)
     corridor_path).
Proof.
  apply (solve_maze_path_valid corridor corridor_path corridor).
  - vm_compute. reflexivity.
  - discriminate.
Defined.

(** C3.  On a grid field with positive dimensions, whatever the random
    choices, [generate_maze] returns, and then the cells at
    [start = (0, 0, 0)] and at [end = (depth-1, height-1, width-1)] are
    Open. *)
Theorem generate_maze_opens_ends self rng :
  GridField self → positive self →
  ∃ self' rng',
    generate_maze self rng = Ok (self', rng') ∧
    start self' = (0, 0, 0) ∧
    end_ self' = (depth self - 1, height self - 1, width self - 1) ∧
    Open self' (start self') ∧ Open self' (end_ self').
Proof.
  intros Hf Hp.
  destruct (generate_maze_run self rng Hf Hp)
    as (self' & rng' & Hg & Hf' & (Hw & Hh & Hd & _) & Hs & He).
  exists self', rng'. destruct Hf' as (_ & Hs' & He').
  split_and!; try done. by rewrite He', Hw, Hh, Hd.
Qed.

Lemma generate_maze_opens_ends_witness :
  ∃ self' rng',
    generate_maze cube counting = Ok (self', rng') ∧
    start self' = (0, 0, 0) ∧
    end_ self' = (depth cube - 1, height cube - 1, width cube - 1) ∧
    Open self' (start self') ∧ Open self' (end_ self').
Proof.
  apply (generate_maze_opens_ends cube counting).
  - exact GridField_cube.
  - exact positive_cube.
Defined.

(** C4.  On a grid field with positive dimensions, whatever the random
    choices, the carving loop ends with an empty stack; no cell was added
    to the visited set twice; and every cell that distance-2 axial steps
    inside the grid reach from [start] was added exactly once. *)
Theorem carve_visits_once self rng :
  GridField self → positive self →
  ∃ st, carve self rng = Ok st ∧ cs_stack st = [] ∧
        NoDup (cs_visited st) ∧
        ∀ c, lattice_reach self c →
             count_occ (λ a b : coord, decide (a = b)) (cs_visited st) c
             = 1%nat.
Proof.
  intros Hf Hp.
  destruct (carve_run self rng Hf Hp) as (s0 & st & _ & Hst & _ & Hnil & Hi).
  exists st. split_and!; [done|done|apply (ci_nodup _ _ Hi)|].
  intros c Hc.
  apply NoDup_count_occ'; [apply NoDup_ListNoDup, (ci_nodup _ _ Hi)|].
  apply list_elem_of_In. by eapply carve_visits_lattice.
Qed.

Lemma carve_visits_once_witness :
  ∃ st, carve cube counting = Ok st ∧ cs_stack st = [] ∧
        NoDup (cs_visited st) ∧
        ∀ c, lattice_reach cube c →
             count_occ (λ a b : coord, decide (a = b)) (cs_visited st) c
             = 1%nat.
Proof.
  apply (carve_visits_once cube counting).
  - exact GridField_cube.
  - exact positive_cube.
Defined.

(** C5, as the claim states it, fails: in the corridor whose start is
    Blocked no path from [start] to [end] runs through Open cells only,
    and [solve_maze] returns a path of three cells. *)
Lemma solve_maze_blocked_entry_path :
  GridField blocked_entry ∧
  (∀ w, ¬ path adjacent (Open blocked_entry) (start blocked_entry)
            (end_ blocked_entry) w) ∧
  solve_maze blocked_entry = Ok (corridor_path, blocked_entry) ∧
  corridor_path ≠ [].
Proof.
  split_and!; [exact GridField_blocked_entry| |by vm_compute|done].
  intros w (Hh & _ & HF & _). destruct w as [|c w]; [done|].
  injection Hh as ->. apply Forall_cons in HF as [H _]. by vm_compute in H.
Qed.

(** C5, amended.  On a grid field in which no sequence of unit axial
    steps, each into an Open cell, leads from [start] to [end],
    [solve_maze] returns, and what it returns is the empty path. *)
Theorem solve_maze_no_path self :
  GridField self →
  (∀ w, ¬ walk self (start self) (end_ self) w) →
  solve_maze self = Ok ([], self).
Proof.
  intros Hf Hno. destruct (solve_maze_total self Hf) as [p Hp].
  apply solve_maze_sound in Hp as Hs.
  destruct Hs as [_ [->|(n & _ & Hw & _)]]; [done|]. by destruct (Hno p).
Qed.

Lemma solve_maze_no_path_witness : solve_maze sealed = Ok ([], sealed).
Proof.
  apply (solve_maze_no_path sealed).
  - exact GridField_sealed.
  - exact sealed_no_walk.
Defined.

(** C6.  The generation loop, for any number [n] of attempts allowed and
    any body that returns (the body of [main] does, and [main] is the
    loop at that body and [n = max_attempts = 10]), never raises and
    makes at most [n] passes.  It ends either with the maze and the path
    of its last pass, that path being the first that is not empty and
    the pass being the one whose number it reports, or, after [n] passes
    that all gave the empty path, without a maze. *)
Theorem supervisor_loop body n rng :
  (∀ r, ∃ maze path r', body r = Ok (maze, path, r')) →
  ∃ log res rng',
    attempts body (seqZ 1 n) rng = Ok (res, rng') ∧
    tried body rng log rng' ∧
    (length log ≤ Z.to_nat n)%nat ∧
    match res with
    | Solved attempt maze path =>
        ∃ failed, log = failed ++ [(maze, path)] ∧ path ≠ [] ∧
                  Forall (λ mp, mp.2 = []) failed ∧
                  attempt = Z.of_nat (length log)
    | Exhausted =>
        length log = Z.to_nat n ∧ Forall (λ mp, mp.2 = []) log
    end.
Proof. apply attempts_budget. Qed.

(** On the field of 2 x 2 x 2 cells the loop gives up after ten passes. *)
Lemma supervisor_loop_witness :
  ∃ log rng',
    attempts (attempt_at 2 2 2) (seqZ 1 max_attempts) counting
      = Ok (Exhausted, rng') ∧
    tried (attempt_at 2 2 2) counting log rng' ∧
    length log = Z.to_nat max_attempts ∧ Forall (λ mp, mp.2 = []) log.
Proof.
  destruct (supervisor_loop (attempt_at 2 2 2) max_attempts counting)
    as (log & res & rng' & Ha & Ht & _ & Hres).
  { intros r. destruct (attempt_at_small r) as (maze & r' & Hr). eauto. }
  destruct res as [attempt maze path|].
  - exfalso. clear Ha. destruct Hres as (failed & -> & Hne & _).
    destruct (tried_elem_of _ _ _ _ maze path Ht) as (r & r' & Hr).
    { apply elem_of_app. right. apply elem_of_cons. left. reflexivity. }
    destruct (attempt_at_small r) as (maze' & r'' & Hr').
    rewrite Hr in Hr'. injection Hr' as _ Hpath _. exact (Hne Hpath).
  - destruct Hres as [Hlen Hall].
    exists log, rng'. exact (conj Ha (conj Ht (conj Hlen Hall))).
Defined.

(** The loop of [main] within its ten attempts. *)
Lemma main_within_budget rng :
  ∃ log res rng',
    main rng = Ok (res, rng') ∧ tried attempt_body rng log rng' ∧
    (length log ≤ Z.to_nat max_attempts)%nat ∧
    match res with
    | Solved attempt maze path =>
        ∃ failed, log = failed ++ [(maze, path)] ∧ path ≠ [] ∧
                  Forall (λ mp, mp.2 = []) failed ∧
                  attempt = Z.of_nat (length log)
    | Exhausted =>
        length log = Z.to_nat max_attempts ∧ Forall (λ mp, mp.2 = []) log
    end.
Proof. apply attempts_budget, attempt_body_ok. Qed.

(** C7, as the claim states it, fails: on the square of four cells that
    are all Open before the call, the carving loop ends at once and leaves
    two simple paths from one corner to the opposite one. *)
Lemma carve_open_square_not_tree :
  GridField open_square ∧ positive open_square ∧
  ∃ st, carve open_square counting = Ok st ∧ cs_stack st = [] ∧
        simple_path adjacent (Open (cs_self st)) (0, 0, 0) (0, 1, 1)
          square_left ∧
        simple_path adjacent (Open (cs_self st)) (0, 0, 0) (0, 1, 1)
          square_right ∧
        ¬ is_tree adjacent (Open (cs_self st)).
Proof.
  split; [split; [split; [done|repeat constructor]|done]|].
  split; [unfold positive; simpl; lia|].
  eexists. split; [vm_compute; reflexivity|]. cbn [cs_stack cs_self].
  assert (∀ p, p = square_left ∨ p = square_right →
            simple_path adjacent (Open open_square) (0, 0, 0) (0, 1, 1) p)
    as Hp.
  { intros p Hp. split; [split_and!|].
    - by destruct Hp as [-> | ->].
    - by destruct Hp as [-> | ->].
    - destruct Hp as [-> | ->]; repeat constructor.
    - destruct Hp as [-> | ->]; simpl; lia.
    - destruct Hp as [-> | ->];
        (repeat (apply NoDup_cons_2; [|]); [..|apply NoDup_nil_2];
         rewrite ?elem_of_cons, ?elem_of_nil; intros ?; destruct_or?;
         done). }
  split_and!; [done|apply Hp; by left|apply Hp; by right|].
  intros [_ Hu].
  by pose proof (Hu _ _ _ _ (Hp _ (or_introl eq_refl))
                          (Hp _ (or_intror eq_refl))).
Qed.

(** C7, amended.  On a grid field with positive dimensions none of whose
    cells is Open when the carving begins, as [__init__] leaves it,
    whatever the random choices, the carving loop ends, and at its end
    the Open cells with unit adjacency form a tree: any two of them are
    joined by a simple path, and by one only.  The tree holds [start] and
    every cell inside the grid whose coordinates are all even. *)
Theorem carve_is_tree self rng :
  GridField self → positive self → (∀ c, ¬ Open self c) →
  ∃ st, carve self rng = Ok st ∧ cs_stack st = [] ∧
        Open (cs_self st) (start self) ∧
        (∀ c, in_bounds self c = true → on_lattice c →
              Open (cs_self st) c) ∧
        is_tree adjacent (Open (cs_self st)).
Proof.
  intros Hf Hp Hclosed.
  destruct (carve_closed_run self rng Hf Hp Hclosed)
    as (st & Hst & Hnil & Hi & Ht).
  exists st. split_and!; [done|done| | |apply (ti_tree _ Ht)].
  - apply (ti_lattice _ Ht), (ci_start _ _ Hi).
  - intros c Hb Hl. apply (ti_lattice _ Ht).
    eapply carve_visits_lattice; [done..|].
    apply lattice_reach_all; [apply Hf|done..].
Qed.

Lemma carve_is_tree_witness :
  ∃ st, carve cube counting = Ok st ∧ cs_stack st = [] ∧
        Open (cs_self st) (start cube) ∧
        (∀ c, in_bounds cube c = true → on_lattice c →
              Open (cs_self st) c) ∧
        is_tree adjacent (Open (cs_self st)).
Proof.
  apply (carve_is_tree cube counting).
  - exact GridField_cube.
  - exact positive_cube.
  - exact cube_closed.
Defined.

(** C8.  On a grid field with positive dimensions the array answers at
    a coordinate exactly when [0 <= z < depth], [0 <= y < height] and
    [0 <= x < width], and raises [IndexError] elsewhere.  Whatever the
    random choices, [generate_maze] and [solve_maze], before and after
    the generation, run without raising: no read and no write of the
    grid leaves these bounds. *)
Theorem accesses_in_bounds self rng :
  GridField self → positive self →
  (∀ c v, (is_Some (getitem (grid self) c) ↔ in_bounds self c = true) ∧
          (is_Some (setitem (grid self) c v) ↔ in_bounds self c = true)) ∧
  (∃ p, solve_maze self = Ok (p, self)) ∧
  ∃ self' rng' p,
    generate_maze self rng = Ok (self', rng') ∧ GridField self' ∧
    same_frame self self' ∧ solve_maze self' = Ok (p, self').
Proof.
  intros Hf Hp. split_and!.
  - intros c v. rewrite setitem_is_Some. split; by apply GridField_getitem.
  - by apply solve_maze_total.
  - destruct (generate_maze_run self rng Hf Hp)
      as (self' & rng' & Hg & Hf' & Hfr & _).
    destruct (solve_maze_total self' Hf') as [p Hs]. eauto 10.
Qed.

Lemma accesses_in_bounds_witness :
  (∀ c v, (is_Some (getitem (grid cube) c) ↔ in_bounds cube c = true) ∧
          (is_Some (setitem (grid cube) c v) ↔ in_bounds cube c = true)) ∧
  (∃ p, solve_maze cube = Ok (p, cube)) ∧
  ∃ self' rng' p,
    generate_maze cube counting = Ok (self', rng') ∧ GridField self' ∧
    same_frame cube self' ∧ solve_maze self' = Ok (p, self').
Proof.
  apply (accesses_in_bounds cube counting).
  - exact GridField_cube.
  - exact positive_cube.
Defined.

(** C9.  On a grid field [solve_maze] returns and leaves the object as
    it found it: array, dimensions, [start] and [end].  A second call
    right after the first returns the same path and leaves the same
    object, nothing of the first search being left. *)
Theorem solve_maze_frame self :
  GridField self →
  ∃ p, solve_maze self = Ok (p, self) ∧
       (∀ p' self', solve_maze self = Ok (p', self') → self' = self) ∧
       solve_twice self = Ok (p, p, self).
Proof.
  intros Hf. destruct (solve_maze_total self Hf) as [p Hp]. exists p.
  split_and!; [done| |].
  - by intros p' self' [-> _]%solve_maze_sound.
  - unfold solve_twice. rewrite Hp. simpl. rewrite Hp. done.
Qed.

Lemma solve_maze_frame_witness :
  ∃ p, solve_maze corridor = Ok (p, corridor) ∧
       (∀ p' self', solve_maze corridor = Ok (p', self') → self' = corridor) ∧
       solve_twice corridor = Ok (p, p, corridor).
Proof. apply (solve_maze_frame corridor). exact GridField_corridor. Defined.

(** C10.  Whatever the array holds at the call, from before a call of
    [generate_maze] to after it every cell keeps its value or has become
    Open, so a cell that was Open is Open; and the same holds across each
    iteration of the carving loop and across the random openings. *)
Theorem generate_maze_never_blocks self rng self' rng' :
  generate_maze self rng = Ok (self', rng') →
  only_opens (grid self) (grid self') ∧
  (∀ c, Open self c → Open self' c) ∧
  (∀ st st', carve_step st = Ok (Some st') →
     only_opens (grid (cs_self st)) (grid (cs_self st')) ∧
     ∀ c, Open (cs_self st) c → Open (cs_self st') c) ∧
  (∀ n s r s' r', random_openings n s r = Ok (s', r') →
     only_opens (grid s) (grid s') ∧ ∀ c, Open s c → Open s' c).
Proof.
  intros [Ho _]%generate_maze_only_opens. split_and!.
  - done.
  - intros c. by apply only_opens_Open.
  - intros st st' [Hs _]%carve_step_spec%carve_trans_only_opens.
    split; [done|]. intros c. by apply only_opens_Open.
  - intros n s r s' r' [Hs _]%random_openings_only_opens.
    split; [done|]. intros c. by apply only_opens_Open.
Qed.

Lemma generate_maze_never_blocks_witness :
  ∃ self' rng',
    generate_maze corridor counting = Ok (self', rng') ∧
    only_opens (grid corridor) (grid self') ∧
    (∀ c, Open corridor c → Open self' c).
Proof.
  eexists _, _. split; [vm_compute; reflexivity|].
  refine (let H := generate_maze_never_blocks corridor counting _ _ _ in
          conj (proj1 H) (proj1 (proj2 H))).
  vm_compute. reflexivity.
Defined.

(** * Further properties *)

(** ** The search finds a path when there is one *)

(** [end] has not left the queue. *)
Lemma visit_end_queued self c st d st' :
  visit self c st d = Ok st' →
  (end_ self ∈ visited st → end_ self ∈ queue st) →
  end_ self ∈ visited st' → end_ self ∈ queue st'.
Proof.
  intros [(_ & _ & ->)|[_ ->]]%visit_spec Hq; [|done]. simpl.
  intros [->%elem_of_singleton|Hv%Hq]%elem_of_union; apply elem_of_app;
    [right; by left|by left].
Qed.

Lemma visit_all_end_queued self c ds st st' :
  visit_all self c ds st = Ok st' →
  (end_ self ∈ visited st → end_ self ∈ queue st) →
  end_ self ∈ visited st' → end_ self ∈ queue st'.
Proof.
  revert st. induction ds as [|d ds IH]; intros st; simpl.
  { by intros [= <-]. }
  rewrite bind_Ok. intros (st1 & H1 & Hr) Hq.
  eapply IH; [done|]. by eapply visit_end_queued.
Qed.

Lemma bfs_loop_empty self fuel st k front back self' :
  bfs_inv self k front back st →
  (end_ self ∈ visited st → end_ self ∈ queue st) →
  bfs_loop fuel self st = Ok ([], self') →
  ∀ n, ¬ reach self n (end_ self).
Proof.
  revert st k front back.
  induction fuel as [|fuel IH]; intros st k front back Hi Hq; [done|].
  cbn [bfs_loop]. destruct (queue st) as [|c q] eqn:Hqueue.
  - intros _ n Hr.
    assert (∀ m x, reach self m x → x ∈ visited st) as Hall.
    { induction 1 as [|m x x' _ IHx Hadj He].
      - eapply (bc_complete _ _ _ _ _ (bi_core _ _ _ _ _ Hi));
          [constructor|lia].
      - eapply (bi_closed _ _ _ _ _ Hi x); [done| |done..].
        rewrite ?Hqueue. apply not_elem_of_nil. }
    apply Hall, Hq in Hr. rewrite ?Hqueue in Hr. by apply elem_of_nil in Hr.
  - destruct (bfs_inv_head _ _ _ _ _ _ _ Hi Hqueue)
      as (k' & front' & back' & Hi' & ->).
    case_bool_decide as Hend.
    + subst c.
      destruct (bfs_found _ _ _ _ _ Hi') as (p' & n' & -> & _ & _ & Hlen).
      simpl. intros [= -> _]. done.
    + rewrite bind_Ok. intros (st' & Hv & Hloop).
      destruct (bfs_iteration _ _ _ _ _ _ _ Hi' Hv) as [back'' Hi''].
      eapply IH; [done| |done].
      eapply visit_all_end_queued; [done|]. simpl.
      intros He%Hq. rewrite ?Hqueue in He.
      apply elem_of_cons in He as [?|?]; [congruence|done].
Qed.

Lemma walk_nonempty_reach self n c :
  reach self n c → ∃ w, walk self (start self) c w ∧ length w = S n.
Proof.
  induction 1 as [|n c c' _ (w & Hw & Hlen) Hadj He].
  - exists [start self]. split; [apply walk_singleton|done].
  - exists (w ++ [c']). split; [by eapply walk_snoc|].
    rewrite length_app. simpl. lia.
Qed.

Lemma solve_maze_empty_no_walk self self' w :
  solve_maze self = Ok ([], self') → ¬ walk self (start self) (end_ self) w.
Proof.
  intros Hs Hw%walk_reach. revert Hw.
  eapply (bfs_loop_empty self _ _ 0%nat [start self] []);
    [apply bfs_inv_init| |exact Hs].
  simpl. intros He%elem_of_singleton. rewrite He. by left.
Qed.

Lemma solve_maze_finds self w :
  GridField self → walk self (start self) (end_ self) w →
  ∃ p, solve_maze self = Ok (p, self) ∧ p ≠ [].
Proof.
  intros Hf Hw. destruct (solve_maze_total self Hf) as [p Hp].
  exists p. split; [done|]. intros ->.
  by destruct (solve_maze_empty_no_walk _ _ w Hp).
Qed.

(** X3.  On a grid field [solve_maze] returns the empty path exactly when
    no sequence of unit axial steps, each into an Open cell, leads from
    [start] to [end]: it finds a path whenever there is one. *)
Theorem solve_maze_empty_iff self :
  GridField self →
  solve_maze self = Ok ([], self) ↔
  ∀ w, ¬ walk self (start self) (end_ self) w.
Proof.
  intros Hf. split.
  - intros Hs w. by eapply solve_maze_empty_no_walk.
  - intros Hno. destruct (solve_maze_total self Hf) as [p Hp].
    apply solve_maze_sound in Hp as Hs.
    destruct Hs as [_ [->|(n & _ & Hw & _)]]; [done|]. by destruct (Hno p).
Qed.

Lemma solve_maze_empty_iff_witness :
  solve_maze sealed = Ok ([], sealed) ↔
  ∀ w, ¬ walk sealed (start sealed) (end_ sealed) w.
Proof. apply (solve_maze_empty_iff sealed). exact GridField_sealed. Defined.

(** ** The path does not cross itself *)

Lemma linked_app_cons {A} (R : A → A → Prop) (l1 l2 : list A) c :
  linked R (l1 ++ c :: l2) ↔ linked R (l1 ++ [c]) ∧ linked R (c :: l2).
Proof.
  induction l1 as [|a l1 IH]; [simpl; tauto|].
  destruct l1 as [|b l1]; [simpl; tauto|].
  change ((a :: b :: l1) ++ c :: l2) with (a :: (b :: l1) ++ c :: l2).
  change ((a :: b :: l1) ++ [c]) with (a :: (b :: l1) ++ [c]).
  change ((b :: l1) ++ c :: l2) with (b :: (l1 ++ c :: l2)) in *.
  change ((b :: l1) ++ [c]) with (b :: (l1 ++ [c])) in *.
  cbn [linked] in *. tauto.
Qed.

(** A walk that comes back to a cell can leave out the round. *)
Lemma walk_cut self a b l1 c l2 l3 :
  walk self a b (l1 ++ c :: l2 ++ c :: l3) → walk self a b (l1 ++ c :: l3).
Proof.
  intros (Hh & Hl & Hk & HF). refine (conj _ (conj _ (conj _ _))).
  - by destruct l1.
  - rewrite last_app_cons in Hl |- *.
    change (c :: l2 ++ c :: l3) with ((c :: l2) ++ c :: l3) in Hl.
    by rewrite last_app_cons in Hl.
  - apply linked_app_cons in Hk as [Hk1 Hk2].
    change (c :: l2 ++ c :: l3) with ((c :: l2) ++ c :: l3) in Hk2.
    apply linked_app_cons in Hk2 as [_ Hk2].
    by apply linked_app_cons.
  - destruct l1 as [|a' l1]; simpl in *.
    + apply Forall_app in HF as [_ HF]. by apply Forall_cons in HF as [_ HF].
    + apply Forall_app in HF as [HF1 HF]. apply Forall_cons in HF as [Hc HF].
      apply Forall_app in HF as [_ HF]. apply Forall_cons in HF as [_ HF].
      apply Forall_app. split; [done|]. by apply Forall_cons.
Qed.

Lemma repeated_split (l : list coord) :
  ¬ NoDup l → ∃ l1 c l2 l3, l = l1 ++ c :: l2 ++ c :: l3.
Proof.
  induction l as [|a l IH]; intros Hn; [destruct Hn; constructor|].
  destruct (decide (a ∈ l)) as [Hin|Hnin].
  - apply list_elem_of_split in Hin as (l2 & l3 & ->). by exists [], a, l2, l3.
  - destruct IH as (l1 & c & l2 & l3 & ->).
    { intros Hl. apply Hn. by constructor. }
    by exists (a :: l1), c, l2, l3.
Qed.

(** A walk of least length visits no cell twice. *)
Lemma least_walk_NoDup self n p :
  level self n (end_ self) → walk self (start self) (end_ self) p →
  length p = S n → NoDup p.
Proof.
  intros [_ Hmin] Hw Hlen.
  destruct (decide (NoDup p)) as [|Hdup]; [done|]. exfalso.
  apply repeated_split in Hdup as (l1 & c & l2 & l3 & ->).
  apply walk_cut, walk_reach in Hw.
  apply (Hmin _) in Hw; [done|].
  rewrite !length_app in *. simpl in *. rewrite length_app in Hlen.
  simpl in Hlen. lia.
Qed.

(** X4.  The path [solve_maze] returns visits no cell twice, and so has at
    most one cell more than the declared volume. *)
Theorem solve_maze_path_simple self p self' :
  solve_maze self = Ok (p, self') →
  NoDup p ∧ (length p ≤ S (cells self))%nat.
Proof.
  intros [_ [->|(n & Hlv & Hw & Hlen)]]%solve_maze_sound.
  { split; [constructor|simpl; lia]. }
  pose proof (least_walk_NoDup _ _ _ Hlv Hw Hlen) as Hnd.
  split; [done|]. rewrite <- length_all_cells.
  change (S (length (all_cells self)))
    with (length (start self :: all_cells self)).
  apply submseteq_length, NoDup_submseteq; [done|].
  intros c Hc. destruct Hw as (Hh & _ & _ & HF).
  destruct p as [|a p]; [done|]. injection Hh as ->.
  apply elem_of_cons in Hc as [->|Hc]; [by left|]. right.
  apply elem_of_all_cells. rewrite Forall_forall in HF. by apply HF.
Qed.

Lemma solve_maze_path_simple_witness :
  NoDup corridor_path ∧ (length corridor_path ≤ S (cells corridor))%nat.
Proof.
  apply (solve_maze_path_simple corridor corridor_path corridor).
  vm_compute. reflexivity.
Defined.

(** ** Construction and the dimensions it accepts *)

Lemma getitem_replicate d h w v c :
  is_Some (getitem (replicate d (replicate h (replicate w v))) c) →
  getitem (replicate d (replicate h (replicate w v))) c = Some v.
Proof.
  destruct c as [[z y] x]. unfold getitem. case_bool_decide; [|by intros [??]].
  destruct (replicate d _ !! Z.to_nat z) as [plane|] eqn:Hp; [|by intros [??]].
  apply lookup_replicate in Hp as [-> _]. simpl.
  destruct (replicate h _ !! Z.to_nat y) as [row|] eqn:Hr; [|by intros [??]].
  apply lookup_replicate in Hr as [-> _]. simpl.
  destruct (replicate w _ !! Z.to_nat x) as [v'|] eqn:Hv; [|by intros [??]].
  apply lookup_replicate in Hv as [-> _]. done.
Qed.

(** X1.  When [__init__] returns an object, no dimension asked for was
    negative and the array was not too big; the object has the dimensions
    asked for, [start] at the origin and [end] at the opposite corner, an
    array of that shape, and a wall ([1]) in every cell inside the
    bounds, so that none of its cells is Open. *)
Theorem Maze3D_init_all_walls w h d self :
  Maze3D_init w h d = Ok self →
  (0 ≤ w ∧ 0 ≤ h ∧ 0 ≤ d ∧ nbytes d h w ≤ max_size) ∧
  GridField self ∧
  width self = w ∧ height self = h ∧ depth self = d ∧
  start self = (0, 0, 0) ∧ end_ self = (d - 1, h - 1, w - 1) ∧
  (∀ c, in_bounds self c = true → getitem (grid self) c = Some 1) ∧
  (∀ c, ¬ Open self c).
Proof.
  intros Hi.
  assert (0 ≤ w ∧ 0 ≤ h ∧ 0 ≤ d ∧ nbytes d h w ≤ max_size)
    as (Hw & Hh & Hd & Hn).
  { unfold Maze3D_init, ones in Hi. do 2 (case_bool_decide; [|done]). lia. }
  destruct (Maze3D_init_GridField w h d Hw Hh Hd Hn)
    as (self' & Hi' & Hf & Hw' & Hh' & Hd').
  rewrite Hi in Hi'. injection Hi' as <-.
  split_and!; try done.
  - unfold Maze3D_init in Hi. destruct (ones d h w); [|done..].
    by injection Hi as <-.
  - unfold Maze3D_init in Hi. destruct (ones d h w); [|done..].
    by injection Hi as <-.
  - intros c Hc%(GridField_getitem _ _ Hf).
    unfold Maze3D_init, ones in Hi.
    do 2 (case_bool_decide; [|done]).
    simpl in Hi. injection Hi as <-. simpl in *. by apply getitem_replicate.
  - intros c. by eapply ones_not_Open.
Qed.

Lemma Maze3D_init_all_walls_witness :
  Maze3D_init 3 3 3 = Ok cube ∧
  (0 ≤ 3 ∧ 0 ≤ 3 ∧ 0 ≤ 3 ∧ nbytes 3 3 3 ≤ max_size) ∧
  GridField cube ∧
  width cube = 3 ∧ height cube = 3 ∧ depth cube = 3 ∧
  start cube = (0, 0, 0) ∧ end_ cube = (3 - 1, 3 - 1, 3 - 1) ∧
  (∀ c, in_bounds cube c = true → getitem (grid cube) c = Some 1) ∧
  (∀ c, ¬ Open cube c).
Proof.
  split; [reflexivity|]. apply (Maze3D_init_all_walls 3 3 3 cube).
  reflexivity.
Defined.

(** The shape of 2^62 x 0 x 0 has no negative dimension and no cell, and
    yet is refused: the dimensions that are not zero are too big. *)
Lemma Maze3D_init_too_big : Maze3D_init (2 ^ 62) 0 0 = Raise ValueError.
Proof. reflexivity. Qed.

Lemma not_positive_no_cell self c :
  ¬ positive self → in_bounds self c = false.
Proof.
  intros Hp. destruct (in_bounds self c) eqn:Hb; [|done].
  destruct c as [[z y] x]. apply in_bounds_spec in Hb.
  destruct Hp. unfold positive. lia.
Qed.

Lemma no_enterable_no_walk self w :
  (∀ c, ¬ enterable self c) → start self ≠ end_ self →
  ¬ walk self (start self) (end_ self) w.
Proof.
  intros Hno Hne (Hh & Hl & _ & HF).
  destruct w as [|a w]; [done|]. injection Hh as ->.
  destruct w as [|b w]; [by injection Hl|].
  apply Forall_cons in HF as [Hb _]. by destruct (Hno b).
Qed.

Lemma generate_maze_not_positive self rng :
  GridField self → ¬ positive self →
  generate_maze self rng = Raise IndexError.
Proof.
  intros Hf Hp. unfold generate_maze, carve, grid_assign.
  destruct (setitem (grid self) (start self) 0) as [g|] eqn:Hg; [|done].
  assert (is_Some (getitem (grid self) (start self))) as Hs.
  { apply (setitem_is_Some _ _ 0). by rewrite Hg. }
  apply (GridField_getitem _ _ Hf) in Hs.
  by rewrite (not_positive_no_cell _ _ Hp) in Hs.
Qed.

Lemma solve_maze_not_positive self :
  GridField self → ¬ positive self → solve_maze self = Ok ([], self).
Proof.
  intros Hf Hp.
  destruct (solve_maze_total self Hf) as [p Hs].
  apply solve_maze_sound in Hs as Hs'.
  destruct Hs' as [_ [->|(n & _ & Hw & _)]]; [done|]. exfalso.
  eapply no_enterable_no_walk; [| |done].
  - intros c [Hb _]. by rewrite (not_positive_no_cell _ _ Hp) in Hb.
  - destruct Hf as (_ & -> & ->). intros [= Hd Hh Hw'].
    apply Hp. unfold positive. lia.
Qed.

(** X2.  With a dimension that is not positive nothing can be generated.
    [__init__] raises [ValueError] when a dimension is negative or the
    dimensions that are not zero make the array too big; otherwise it
    makes an object without cells, on which [generate_maze] raises
    [IndexError] at its first assignment and [solve_maze] returns the
    empty path. *)
Theorem no_maze_without_cells w h d rng :
  ¬ (0 < w ∧ 0 < h ∧ 0 < d) →
  if bool_decide (0 ≤ w ∧ 0 ≤ h ∧ 0 ≤ d ∧ nbytes d h w ≤ max_size) then
    ∃ self, Maze3D_init w h d = Ok self ∧
            generate_maze self rng = Raise IndexError ∧
            solve_maze self = Ok ([], self)
  else Maze3D_init w h d = Raise ValueError.
Proof.
  intros Hnp. case_bool_decide as Hok.
  - destruct Hok as (Hw & Hh & Hd & Hn).
    destruct (Maze3D_init_GridField w h d Hw Hh Hd Hn)
      as (self & Hi & Hf & Hw' & Hh' & Hd').
    assert (¬ positive self) as Hp by (unfold positive; lia).
    exists self. split_and!; [done|..].
    + by apply generate_maze_not_positive.
    + by apply solve_maze_not_positive.
  - unfold Maze3D_init, ones. case_bool_decide as Hneg; [|done].
    case_bool_decide as Hbig; [|done]. destruct Hok. by destruct Hneg as (?&?&?).
Qed.

Lemma no_maze_without_cells_witness :
  ∃ self, Maze3D_init 3 0 3 = Ok self ∧
          generate_maze self counting = Raise IndexError ∧
          solve_maze self = Ok ([], self).
Proof. apply (no_maze_without_cells 3 0 3 counting). lia. Defined.

(** ** Fields without a way *)

(** X5.  When [start] and [end] are the same cell, [solve_maze] returns
    the path of that one cell, whatever the array holds, also when the
    cell is a wall. *)
Theorem solve_maze_same_cell self :
  start self = end_ self → solve_maze self = Ok ([start self], self).
Proof.
  intros He. unfold solve_maze. rewrite Nat.add_comm.
  cbn [Nat.add bfs_loop queue parent]. rewrite bool_decide_eq_true_2 by done.
  rewrite map_size_singleton. cbn [reconstruct]. rewrite <- He.
  by rewrite lookup_singleton_eq.
Qed.

Lemma solve_maze_same_cell_witness :
  solve_maze one_wall = Ok ([start one_wall], one_wall).
Proof. apply (solve_maze_same_cell one_wall). reflexivity. Defined.

(** X6.  On a grid field without an Open cell, as [__init__] leaves it,
    [solve_maze] returns the empty path unless [start] is [end]. *)
Theorem solve_maze_all_walls self :
  GridField self → (∀ c, ¬ Open self c) → start self ≠ end_ self →
  solve_maze self = Ok ([], self).
Proof.
  intros Hf Hclosed Hne.
  destruct (solve_maze_total self Hf) as [p Hs].
  apply solve_maze_sound in Hs as Hs'.
  destruct Hs' as [_ [->|(n & _ & Hw & _)]]; [done|]. exfalso.
  eapply no_enterable_no_walk; [|done..].
  intros c [_ Ho]. by destruct (Hclosed c).
Qed.

Lemma solve_maze_all_walls_witness : solve_maze cube = Ok ([], cube).
Proof.
  apply (solve_maze_all_walls cube).
  - exact GridField_cube.
  - exact cube_closed.
  - discriminate.
Defined.

(** ** What [generate_maze] leaves alone *)

Lemma carve_rtc_GridField st st' :
  rtc carve_trans st st' → GridField (cs_self st) → GridField (cs_self st').
Proof.
  induction 1 as [|st st1 st2 Ht _ IH]; [done|]. intros Hf. apply IH.
  destruct Ht; simpl in *; eauto using grid_assign_GridField.
Qed.

Lemma random_openings_GridField n self rng self' rng' :
  random_openings n self rng = Ok (self', rng') →
  GridField self → GridField self'.
Proof.
  revert self rng. induction n as [|n IH]; intros self rng; simpl.
  { by intros [= <- <-]. }
  rewrite bind_Ok. intros ([z r1] & _ & H).
  apply bind_Ok in H as ([y r2] & _ & H).
  apply bind_Ok in H as ([x r3] & _ & H).
  apply bind_Ok in H as (self1 & H1 & H). intros Hf.
  eapply IH; [done|]. by eapply grid_assign_GridField.
Qed.

(** X7.  A call of [generate_maze] that returns has changed nothing but
    the contents of cells: the dimensions, [start], [end] and the shape
    of the array are as before. *)
Theorem generate_maze_frame self rng self' rng' :
  generate_maze self rng = Ok (self', rng') →
  same_frame self self' ∧ (GridField self → GridField self').
Proof.
  intros Hg. split; [apply (generate_maze_only_opens _ _ _ _ Hg)|].
  apply generate_maze_inv in Hg
    as (st & self1 & self2 & n & Hst & H1 & H2 & Hr).
  intros Hf. eapply random_openings_GridField; [done|].
  eapply grid_assign_GridField; [done|].
  eapply grid_assign_GridField; [done|].
  unfold carve in Hst. apply bind_Ok in Hst as (s0 & H0 & [Hrtc _]%carve_loop_rtc).
  apply carve_rtc_GridField in Hrtc; [done|]. simpl.
  by eapply grid_assign_GridField.
Qed.

Lemma generate_maze_frame_witness :
  ∃ self' rng',
    generate_maze cube counting = Ok (self', rng') ∧
    same_frame cube self' ∧ (GridField cube → GridField self').
Proof.
  eexists _, _. split; [vm_compute; reflexivity|].
  eapply (generate_maze_frame cube counting). vm_compute. reflexivity.
Defined.

(** ** What the carving loop opens *)

(** X8.  When the carving loop has ended on a grid field with positive
    dimensions that had no Open cell, every cell inside the grid whose
    coordinates are all even is Open, and every Open cell is inside the
    grid and is such a cell or the cell between two of them that are
    Open: a cell with two odd coordinates is still a wall. *)
Theorem carve_opens_lattice self rng :
  GridField self → positive self → (∀ c, ¬ Open self c) →
  ∃ st, carve self rng = Ok st ∧
    (∀ c, in_bounds self c = true → on_lattice c → Open (cs_self st) c) ∧
    (∀ c, Open (cs_self st) c →
       in_bounds self c = true ∧
       (on_lattice c ∨
        ∃ a d, d ∈ directions ∧ c = hop 1 a d ∧ on_lattice a ∧
               Open (cs_self st) a ∧ Open (cs_self st) (hop 2 a d))).
Proof.
  intros Hf Hp Hclosed.
  destruct (carve_closed_run self rng Hf Hp Hclosed)
    as (st & Hst & Hnil & Hi & Ht).
  exists st. split_and!; [done|..].
  - intros c Hb Hl. apply (ti_lattice _ Ht).
    eapply carve_visits_lattice; [done..|].
    apply lattice_reach_all; [apply Hf|done..].
  - intros c [Hv|(a & d & Hd & -> & Ha & Ha2)]%(ti_open _ Ht).
    + split; [by apply (ci_bounds _ _ Hi)|left; by apply (ti_lattice _ Ht)].
    + split.
      * apply hop_between; [done|by apply (ci_bounds _ _ Hi)..].
      * right. exists a, d. split_and!; try done; by apply (ti_lattice _ Ht).
Qed.

Lemma carve_opens_lattice_witness :
  ∃ st, carve cube counting = Ok st ∧
    (∀ c, in_bounds cube c = true → on_lattice c → Open (cs_self st) c) ∧
    (∀ c, Open (cs_self st) c →
       in_bounds cube c = true ∧
       (on_lattice c ∨
        ∃ a d, d ∈ directions ∧ c = hop 1 a d ∧ on_lattice a ∧
               Open (cs_self st) a ∧ Open (cs_self st) (hop 2 a d))).
Proof.
  apply (carve_opens_lattice cube counting).
  - exact GridField_cube.
  - exact positive_cube.
  - exact cube_closed.
Defined.

(** ** Odd dimensions always give a maze with a way through *)

Lemma generate_maze_after_carve self rng self' rng' st :
  carve self rng = Ok st → generate_maze self rng = Ok (self', rng') →
  only_opens (grid (cs_self st)) (grid self').
Proof.
  intros Hst (st' & self1 & self2 & n & Hst' & H1 & H2 & Hr)%generate_maze_inv.
  rewrite Hst in Hst'. injection Hst' as <-.
  apply random_openings_only_opens in Hr as [Hr _].
  eapply only_opens_trans; [by eapply grid_assign_only_opens|].
  eapply only_opens_trans; [by eapply grid_assign_only_opens|done].
Qed.

Lemma odd_solvable self rng :
  GridField self → positive self → (∀ c, ¬ Open self c) →
  odd_dimensions self →
  ∃ self' rng' p,
    generate_maze self rng = Ok (self', rng') ∧ GridField self' ∧
    solve_maze self' = Ok (p, self') ∧ p ≠ [].
Proof.
  intros Hf Hp Hclosed (Hw & Hh & Hd).
  destruct (carve_closed_run self rng Hf Hp Hclosed)
    as (st & Hst & Hnil & Hi & Ht).
  destruct (generate_maze_run self rng Hf Hp)
    as (self' & rng' & Hg & Hf' & (_ & _ & _ & Hs' & He') & _).
  pose proof (generate_maze_after_carve _ _ _ _ _ Hst Hg) as Ho.
  assert (∀ c, in_bounds self c = true → on_lattice c → Open (cs_self st) c)
    as Hlat.
  { intros c Hb Hl. apply (ti_lattice _ Ht).
    eapply carve_visits_lattice; [done..|].
    apply lattice_reach_all; [apply Hf|done..]. }
  pose proof Hf as (_ & Hs0 & He0). pose proof Hp as (?&?&?).
  assert (Open (cs_self st) (start self)) as Hos.
  { apply Hlat; rewrite Hs0; [apply in_bounds_spec; lia|].
    unfold on_lattice. lia. }
  assert (Open (cs_self st) (end_ self)) as Hoe.
  { apply Hlat; rewrite He0; [apply in_bounds_spec; lia|].
    unfold on_lattice. lia. }
  destruct (proj1 (ti_tree _ Ht) _ _ Hos Hoe) as [w [Hw' _]].
  destruct (solve_maze_finds self' w Hf') as (p & Hsol & Hne).
  { rewrite Hs', He'. apply path_walk; [done|].
    eapply path_mono; [|done]. intros c. by apply only_opens_Open. }
  eauto 10.
Qed.

(** X9.  On a freshly made grid field with positive odd dimensions,
    whatever the random choices, [generate_maze] followed by
    [solve_maze] produces a path that is not empty: the carved tree
    reaches [end]. *)
Theorem odd_dimensions_solvable self rng :
  GridField self → positive self → (∀ c, ¬ Open self c) →
  odd_dimensions self →
  ∃ p self' rng', generate_and_solve self rng = Ok (p, self', rng') ∧ p ≠ [].
Proof.
  intros Hf Hp Hclosed Hodd.
  destruct (odd_solvable self rng Hf Hp Hclosed Hodd)
    as (self' & rng' & p & Hg & _ & Hs & Hne).
  exists p, self', rng'. split; [|done].
  unfold generate_and_solve. rewrite Hg. simpl. rewrite Hs. done.
Qed.

Lemma odd_dimensions_solvable_witness :
  ∃ p self' rng',
    generate_and_solve cube counting = Ok (p, self', rng') ∧ p ≠ [].
Proof.
  apply (odd_dimensions_solvable cube counting).
  - exact GridField_cube.
  - exact positive_cube.
  - exact cube_closed.
  - by vm_compute.
Defined.

(** X10.  [main] always gets its maze at the first pass: whatever the
    random choices, the loop ends with [break] in pass 1, with a path
    that is not empty, and the message of failure is never reached. *)
Theorem main_first_attempt rng :
  ∃ maze path rng',
    main rng = Ok (Solved 1 maze path, rng') ∧ path ≠ [] ∧
    attempt_body rng = Ok (maze, path, rng').
Proof.
  destruct (Maze3D_init_GridField 9 9 5) as (m & Hi & Hf & Hw & Hh & Hd);
    [lia..|by vm_compute|].
  assert (positive m) as Hp by (unfold positive; lia).
  assert (odd_dimensions m) as Hodd.
  { unfold odd_dimensions. by rewrite <- Hw, <- Hh, <- Hd. }
  destruct (odd_solvable m rng Hf Hp) as (m' & rng' & p & Hg & _ & Hs & Hne);
    [intros c; by eapply ones_not_Open|done|].
  assert (attempt_body rng = Ok (m', p, rng')) as Hb.
  { unfold attempt_body. rewrite Hi. simpl. rewrite Hg. simpl.
    by rewrite Hs. }
  exists m', p, rng'. split_and!; [|done..].
  unfold main. change (seqZ 1 max_attempts) with (1 :: seqZ 2 9).
  cbn [attempts]. rewrite Hb. simpl. by destruct p.
Qed.

(** X11.  On a grid field with positive dimensions, whatever the random
    choices, [generate_maze] followed by [solve_maze] returns; [start]
    and [end] are then Open, and a path that is not empty leads from
    [start] to [end] through Open cells only, by unit axial steps,
    without visiting a cell twice. *)
Theorem generated_path_valid self rng :
  GridField self → positive self →
  ∃ p self' rng',
    generate_and_solve self rng = Ok (p, self', rng') ∧
    Open self' (start self') ∧ Open self' (end_ self') ∧
    (p ≠ [] →
     simple_path adjacent (Open self') (start self') (end_ self') p).
Proof.
  intros Hf Hp.
  destruct (generate_maze_run self rng Hf Hp)
    as (self' & rng' & Hg & Hf' & _ & Hos & Hoe).
  destruct (solve_maze_total self' Hf') as [p Hs].
  exists p, self', rng'. split_and!; try done.
  { unfold generate_and_solve. rewrite Hg. simpl. by rewrite Hs. }
  intros Hne. apply solve_maze_sound in Hs as Hs'.
  destruct Hs' as [_ [->|(n & Hlv & Hw & Hlen)]]; [done|].
  split; [by apply walk_path|by eapply least_walk_NoDup].
Qed.

Lemma generated_path_valid_witness :
  ∃ p self' rng',
    generate_and_solve cube counting = Ok (p, self', rng') ∧
    Open self' (start self') ∧ Open self' (end_ self') ∧
    (p ≠ [] →
     simple_path adjacent (Open self') (start self') (end_ self') p).
Proof.
  apply (generated_path_valid cube counting).
  - exact GridField_cube.
  - exact positive_cube.
Defined.

(** ** The cubes that are drawn *)

(** X12.  The six faces [_draw_cube] builds are the six sides of the unit
    cube at [(x, y, z)]: each has four different corners, all of them
    vertices of the cube, consecutive corners (the last and the first
    too) one unit apart, and the faces lie in the planes [y], [y + 1],
    [x], [x + 1], [z] and [z + 1], in this order. *)
Theorem cube_faces_sides x y z :
  Forall (λ f, length f = 4%nat ∧ NoDup f ∧
               linked adjacent (f ++ take 1 f) ∧
               Forall (λ v, v ∈ cube_vertices x y z) f)
         (cube_faces x y z) ∧
  Forall2 (λ f (side : (coord → Z) * Z), Forall (λ v, side.1 v = side.2) f)
    (cube_faces x y z)
    [ (λ v, v.1.2, y); (λ v, v.1.2, y + 1);
      (λ v, v.1.1, x); (λ v, v.1.1, x + 1);
      (λ v, v.2, z); (λ v, v.2, z + 1) ].
Proof.
  split.
  - unfold cube_faces, cube_vertices. cbn [nth].
    repeat (apply Forall_cons_2; [|]); [..|by apply Forall_nil_2];
      (split_and!;
       [ done
       | repeat (apply NoDup_cons_2; [|]); [..|apply NoDup_nil_2];
           rewrite ?elem_of_cons, ?elem_of_nil; intros ?; destruct_or?;
           simplify_eq; try lia; done
       | cbn [app take linked adjacent]; lia
       | repeat (apply Forall_cons_2; [|]); [..|by apply Forall_nil_2];
           rewrite ?elem_of_cons; tauto ]).
  - unfold cube_faces, cube_vertices. cbn [nth].
    repeat (apply Forall2_cons_2; [|]); [..|by apply Forall2_nil_2];
      (repeat (apply Forall_cons_2; [|]); [..|by apply Forall_nil_2]; done).
Qed.

Lemma for_each_flat_map l body (g : Z → list cube_call) :
  (∀ i, i ∈ l → body i = Ok (g i)) → for_each l body = Ok (flat_map g l).
Proof.
  induction l as [|i l IH]; intros Hb; [done|]. simpl.
  rewrite Hb by by left. simpl. rewrite IH; [done|].
  intros j Hj. apply Hb. by right.
Qed.

(** The gray cubes of one row, one plane and the whole array. *)
Lemma visualize_walls self :
  GridField self →
  ∃ walls,
    for_each (seqZ 0 (depth self)) (λ z,
      for_each (seqZ 0 (height self)) (λ y,
        for_each (seqZ 0 (width self)) (λ x,
          v ← grid_read self (z, y, x);
          if bool_decide (v = 1) then Ok [mkCall x y z gray] else Ok [])))
    = Ok walls ∧
    ∀ call, call ∈ walls ↔
      call_colour call = gray ∧
      in_bounds self (call_z call, call_y call, call_x call) = true ∧
      getitem (grid self) (call_z call, call_y call, call_x call) = Some 1.
Proof.
  intros Hf.
  set (cell z y x :=
         if bool_decide (getitem (grid self) (z, y, x) = Some 1)
         then [mkCall x y z gray] else []).
  exists (flat_map (λ z, flat_map (λ y, flat_map (cell z y)
            (seqZ 0 (width self))) (seqZ 0 (height self)))
            (seqZ 0 (depth self))).
  split.
  - apply for_each_flat_map. intros z Hz.
    apply for_each_flat_map. intros y Hy.
    apply for_each_flat_map. intros x Hx. unfold grid_read, cell.
    apply elem_of_seqZ in Hz, Hy, Hx.
    assert (in_bounds self (z, y, x) = true) as Hb
      by (apply in_bounds_spec; lia).
    apply (GridField_getitem _ _ Hf) in Hb as [v Hv]. rewrite Hv. simpl.
    destruct (decide (v = 1)) as [->|Hne].
    + by rewrite !bool_decide_eq_true_2.
    + rewrite !bool_decide_eq_false_2; [done|congruence|done].
  - intros [cx cy cz col]. simpl.
    rewrite list_elem_of_In, in_flat_map. setoid_rewrite in_flat_map.
    setoid_rewrite in_flat_map. setoid_rewrite <- list_elem_of_In.
    setoid_rewrite elem_of_seqZ. rewrite in_bounds_spec. unfold cell. split.
    + intros (z & Hz & y & Hy & x & Hx & Hin).
      case_bool_decide as Hv; [|by apply elem_of_nil in Hin].
      apply list_elem_of_singleton in Hin as [= -> -> -> ->].
      split_and!; [done|lia..|done].
    + intros (-> & (Hz & Hy & Hx) & Hv).
      exists cz. split; [lia|]. exists cy. split; [lia|].
      exists cx. split; [lia|]. rewrite bool_decide_eq_true_2 by done.
      by apply list_elem_of_singleton.
Qed.

(** X13.  On a grid field [visualize] asks for a gray cube exactly at the
    cells inside the grid that hold [1], so never at an Open cell, each
    cell [(z, y, x)] being drawn at [x, y, z]; and for one green cube, at
    [start], and one red cube, at [end]. *)
Theorem visualize_cubes_spec self :
  GridField self →
  ∃ calls,
    visualize_cubes self = Ok calls ∧
    ∀ x y z,
      (mkCall x y z gray ∈ calls ↔
       in_bounds self (z, y, x) = true ∧
       getitem (grid self) (z, y, x) = Some 1) ∧
      (mkCall x y z green ∈ calls ↔ start self = (z, y, x)) ∧
      (mkCall x y z red ∈ calls ↔ end_ self = (z, y, x)).
Proof.
  intros Hf. destruct (visualize_walls self Hf) as (walls & Hw & Hin).
  unfold visualize_cubes. rewrite Hw. simpl.
  destruct (start self) as [[sz sy] sx], (end_ self) as [[ez ey] ex].
  eexists. split; [done|]. intros x y z.
  rewrite !elem_of_app, !Hin, !elem_of_cons, elem_of_nil. simpl.
  split_and!; split; intros H; destruct_or?; destruct_and?; simplify_eq;
    eauto; try done; by apply elem_of_nil in H.
Qed.

Lemma visualize_cubes_spec_witness :
  ∃ calls,
    visualize_cubes sealed = Ok calls ∧
    ∀ x y z,
      (mkCall x y z gray ∈ calls ↔
       in_bounds sealed (z, y, x) = true ∧
       getitem (grid sealed) (z, y, x) = Some 1) ∧
      (mkCall x y z green ∈ calls ↔ start sealed = (z, y, x)) ∧
      (mkCall x y z red ∈ calls ↔ end_ sealed = (z, y, x)).
Proof. apply (visualize_cubes_spec sealed). exact GridField_sealed. Defined.

(** ** Two even dimensions *)

(** X14.  On a freshly made grid field of fewer than 20 cells (so that no
    random opening is added) with positive dimensions of which two are
    even, whatever the random choices, [generate_maze] leaves [end] cut
    off and [solve_maze] returns the empty path. *)
Theorem two_even_dimensions_unsolvable self rng :
  GridField self → positive self → (∀ c, ¬ Open self c) →
  width self * height self * depth self < 20 →
  (width self mod 2 = 0 ∧ height self mod 2 = 0) ∨
  (width self mod 2 = 0 ∧ depth self mod 2 = 0) ∨
  (height self mod 2 = 0 ∧ depth self mod 2 = 0) →
  ∃ self' rng', generate_and_solve self rng = Ok ([], self', rng').
Proof.
  intros Hf Hp Hclosed Hsmall Heven.
  destruct (two_even_no_way self rng Hf Hp Hclosed Hsmall Heven)
    as (self' & rng' & Hg & Hs).
  exists self', rng'. unfold generate_and_solve. rewrite Hg. simpl.
  by rewrite Hs.
Qed.

Lemma two_even_dimensions_unsolvable_witness :
  ∃ self' rng',
    generate_and_solve small_cube counting = Ok ([], self', rng').
Proof.
  apply (two_even_dimensions_unsolvable small_cube counting).
  - split; [apply (replicate_shaped 2 2 2)|done].
  - unfold positive. simpl. lia.
  - intros c. by apply (ones_not_Open 2 2 2).
  - simpl. lia.
  - left. by vm_compute.
Defined.
